(** * dom-screen: locator pipeline, session cleanup and retrying matchers

    A shallow embedding of [screen_locator.ts], [dom_screen.ts] and
    [screen_matchers.ts].  JavaScript strings are modelled by [string], each
    character standing for one code unit below 256; the host DOM is a tree of
    nodes and an [Element] reference is the path of child indices that leads
    to it; exceptions are the [Throw] case of [Result]. *)

From Stdlib Require Import Ascii String List Arith Bool Lia.
From stdpp Require Import base list strings gmap.

Set Default Proof Using "Type".
Set Warnings "-register-all".

(** ** Exceptions *)

Inductive Result (A : Type) : Type :=
| Ok (a : A)
| Throw (message : string).
Arguments Ok {A} a.
Arguments Throw {A} message.

#[global] Instance result_bind : MBind Result :=
  fun A B (k : A -> Result B) (r : Result A) =>
    match r with
    | Ok a => k a
    | Throw m => Throw m
    end.

#[global] Instance result_ret : MRet Result := fun A a => Ok a.


(** ** JavaScript string primitives *)

Module Js.

(** Code units matched by the regular-expression class [\s] and stripped
    by [String.prototype.trim], restricted to code units below 256:
    TAB, LF, VT, FF, CR, SPACE and NBSP. *)
Definition is_space (c : ascii) : bool :=
  let n := nat_of_ascii c in
  ((9 <=? n) && (n <=? 13)) || (n =? 32) || (n =? 160).

Fixpoint trimStart (s : string) : string :=
  match s with
  | EmptyString => EmptyString
  | String c s' => if is_space c then trimStart s' else s
  end.

Fixpoint trimEnd (s : string) : string :=
  match s with
  | EmptyString => EmptyString
  | String c s' =>
      let r := trimEnd s' in
      if is_space c && String.eqb r "" then "" else String c r
  end.

Definition trim (s : string) : string := trimEnd (trimStart s).

(** [s.replace(/\s+/g, ' ')]: [in_run] tells that the previous code unit
    belonged to the whitespace run already replaced. *)
Fixpoint replace_runs (in_run : bool) (s : string) : string :=
  match s with
  | EmptyString => EmptyString
  | String c s' =>
      if is_space c
      then if in_run then replace_runs true s'
           else String " " (replace_runs true s')
      else String c (replace_runs false s')
  end.

Definition replace_whitespace (s : string) : string := replace_runs false s.

(** [s.includes(sub)] *)
Fixpoint includes (s sub : string) : bool :=
  String.prefix sub s ||
  match s with
  | EmptyString => false
  | String _ s' => includes s' sub
  end.

(** [s.split(' ')]: cut at every single SPACE; never returns the empty
    array. *)
Fixpoint split_space (s : string) : list string :=
  match s with
  | EmptyString => [EmptyString]
  | String c s' =>
      if Ascii.eqb c " " then EmptyString :: split_space s'
      else match split_space s' with
           | [] => [String c EmptyString]
           | w :: ws => String c w :: ws
           end
  end.

(** [arr.join(sep)] *)
Definition join (sep : string) (l : list string) : string :=
  String.concat sep l.

(** [arr.includes(x)] on an array of strings *)
Definition array_includes (l : list string) (x : string) : bool :=
  existsb (String.eqb x) l.

(** The lower-case form of a code unit below 256: the letters [A] to [Z],
    and the letters from 192 to 222 but the multiplication sign 215. *)
Definition lower (c : ascii) : ascii :=
  let n := nat_of_ascii c in
  if ((65 <=? n) && (n <=? 90))
     || ((192 <=? n) && (n <=? 222) && negb (n =? 215))
  then ascii_of_nat (n + 32) else c.

Fixpoint toLowerCase (s : string) : string :=
  match s with
  | EmptyString => EmptyString
  | String c s' => String (lower c) (toLowerCase s')
  end.

End Js.

Arguments Js.is_space : simpl never.


(** ** The host document *)

Module Dom.

(** The interface chain of an element, as far as [instanceof] is asked. *)
Inductive ElementInterface :=
| HTMLInputElement
| HTMLTextAreaElement
| HTMLSelectElement
| HTMLElement
| SVGElement.

Definition isHTMLElement (i : ElementInterface) : bool :=
  match i with SVGElement => false | _ => true end.

(** A setter function is known by its identity only. *)
Definition Setter := nat.

Record ElementData := {
  tagName : string;
  iface : ElementInterface;
  attributes : list (string * string);
  value : string;
  (** [Object.getOwnPropertyDescriptor(element, 'value')?.set] *)
  ownValueSetter : option Setter;
  (** the same on [Object.getPrototypeOf(element)] *)
  protoValueSetter : option Setter;
}.

Inductive Node :=
| Text (data : string)
| Comment (data : string)
| Elem (e : ElementData) (childNodes : list Node).

(** An element reference: the child indices from the document root. *)
Definition Element := list nat.

Fixpoint resolve (n : Node) (p : Element) : option Node :=
  match p with
  | [] => Some n
  | i :: p' =>
      match n with
      | Elem _ cs => c ← cs !! i; resolve c p'
      | _ => None
      end
  end.

Definition elementAt (doc : Node) (p : Element)
  : option (ElementData * list Node) :=
  match resolve doc p with
  | Some (Elem e cs) => Some (e, cs)
  | _ => None
  end.

(** [getAttribute(name)]; [None] is JavaScript's [null]. *)
Fixpoint getAttribute (attrs : list (string * string)) (name : string)
  : option string :=
  match attrs with
  | [] => None
  | (k, v) :: rest => if String.eqb k name then Some v else getAttribute rest name
  end.

(** The element descendants of [n] in document order, as paths relative
    to [n]. *)
Fixpoint descendants (n : Node) : list Element :=
  match n with
  | Elem _ cs =>
      (fix children (i : nat) (l : list Node) : list Element :=
         match l with
         | [] => []
         | c :: l' =>
             match c with
             | Elem _ _ => [[i]]
             | _ => []
             end ++ map (cons i) (descendants c) ++ children (S i) l'
         end) 0 cs
  | _ => []
  end.

(** [e.querySelectorAll('*')] *)
Definition allDescendants (doc : Node) (e : Element) : list Element :=
  match resolve doc e with
  | Some n => map (app e) (descendants n)
  | None => []
  end.

(** Replace the data of the element at [p]. *)
Fixpoint update (f : ElementData -> ElementData) (p : Element) (n : Node)
  : Node :=
  match n with
  | Elem e cs =>
      match p with
      | [] => Elem (f e) cs
      | i :: p' =>
          match cs !! i with
          | Some c => Elem e (<[i := update f p' c]> cs)
          | None => n
          end
      end
  | _ => n
  end.

Definition setValue (v : string) (e : ElementData) : ElementData :=
  {| tagName := tagName e; iface := iface e; attributes := attributes e;
     value := v; ownValueSetter := ownValueSetter e;
     protoValueSetter := protoValueSetter e |}.

End Dom.

(** ** The world the tests run in *)

Record EventInit := {
  bubbles : bool;
  cancelable : bool;
  composed : bool;
}.

Definition bubbling : EventInit :=
  {| bubbles := true; cancelable := false; composed := false |}.
Definition bubbling_composed : EventInit :=
  {| bubbles := true; cancelable := false; composed := true |}.

(** An entry of the [KeyPress] table. *)
Record KeyEv := {
  key : string;
  keyCode : nat;
}.

Inductive Event :=
| FocusEvent (type : string) (init : EventInit)
| MouseEvent (type : string) (init : EventInit)
| KeyboardEvent (type : string) (init : KeyEv)
| PlainEvent (type : string) (init : EventInit).

(** What was done to the document, oldest first.  Listeners are not part
    of the model: a dispatched event is recorded and nothing else. *)
Inductive Action :=
| DispatchEvent (target : Dom.Element) (ev : Event)
| CallFocus (target : Dom.Element)
| CallBlur (target : Dom.Element).

(** The [lastIndex] of the regular-expression objects, by the identity of
    the object; 0 for an object the store does not hold. *)
Abbreviation RegExps := (gmap nat nat).

Record World := {
  document : Dom.Node;
  URL : string;
  title : string;
  actions : list Action;
  lastIndex : RegExps;
}.

(** Effectful code: it may change the world and may throw; what was changed
    before the throw stays changed. *)
Definition Eff (A : Type) : Type := World -> Result A * World.

Definition eff_ret {A} (a : A) : Eff A := fun w => (Ok a, w).

Definition eff_throw {A} (message : string) : Eff A :=
  fun w => (Throw message, w).

Definition eff_bind {A B} (m : Eff A) (k : A -> Eff B) : Eff B :=
  fun w =>
    match m w with
    | (Ok a, w') => k a w'
    | (Throw e, w') => (Throw e, w')
    end.

Notation "m1 >> m2" := (eff_bind m1 (fun _ => m2))
  (at level 62, right associativity).

(** [React.act] or similar: runs the callback in a controlled environment. *)
Definition DomScreenAct : Type := forall A : Type, Eff A -> Eff A.

(** An [act] that runs its callback and adds nothing of its own. *)
Definition plainAct : DomScreenAct := fun _ cb => cb.

Definition record (a : Action) : Eff unit :=
  fun w =>
    (Ok tt, {| document := document w; URL := URL w; title := title w;
               actions := actions w ++ [a]; lastIndex := lastIndex w |}).

Definition dispatchEvent (target : Dom.Element) (ev : Event) : Eff unit :=
  record (DispatchEvent target ev).

Definition writeValue (target : Dom.Element) (v : string) : Eff unit :=
  fun w =>
    (Ok tt, {| document := Dom.update (Dom.setValue v) target (document w);
               URL := URL w; title := title w; actions := actions w;
               lastIndex := lastIndex w |}).

(** The world after regular expressions were tested: nothing but their
    [lastIndex] has changed. *)
Definition setLastIndex (rx : RegExps) (w : World) : World :=
  {| document := document w; URL := URL w; title := title w;
     actions := actions w; lastIndex := rx |}.

Definition is_Some_b {A} (o : option A) : bool :=
  match o with Some _ => true | None => false end.

(** ** [Set<Element>]: elements in insertion order, without duplicates *)

Definition ElemSet := list Dom.Element.

Definition set_add (e : Dom.Element) (s : ElemSet) : ElemSet :=
  if bool_decide (e ∈ s) then s else s ++ [e].

Definition set_add_all (es : list Dom.Element) (s : ElemSet) : ElemSet :=
  fold_left (fun acc e => set_add e acc) es s.

(** ** screen_locator.ts: the functions of the module *)

Module Match.

(** A regular-expression object.  [printed] is what a template literal
    prints for it, as [/bravo/g]; [matchAt s i] is the pattern tried at index
    [i] of [s]: the index behind the match, if it matches there.  The
    [lastIndex] of the object is in the store, under [ref]. *)
Record RegExp := {
  ref : nat;
  printed : string;
  global : bool;
  sticky : bool;
  matchAt : string -> nat -> option nat;
}.

(** The loop of [RegExpBuiltinExec] without the [y] flag: the pattern is
    tried at [i], then at the next index, [fuel] times in all. *)
Fixpoint searchFrom (tryAt : nat -> option nat) (fuel i : nat) : option nat :=
  match fuel with
  | 0 => None
  | S fuel' =>
      match tryAt i with
      | Some e => Some e
      | None => searchFrom tryAt fuel' (S i)
      end
  end.

(** [re.test(s)]: with the [g] or the [y] flag the search starts at
    [lastIndex], which is then set behind the match, or to 0 when there is
    none; without them it starts at 0 and [lastIndex] is neither read nor
    written. *)
Definition test (re : RegExp) (s : string) (rx : RegExps) : bool * RegExps :=
  let keeps := global re || sticky re in
  let start := if keeps then default 0 (rx !! ref re) else 0 in
  let length := String.length s in
  let found :=
    if length <? start then None
    else if sticky re then matchAt re s start
         else searchFrom (matchAt re s) (S (length - start)) start in
  match found with
  | None => (false, if keeps then <[ref re := 0]> rx else rx)
  | Some e => (true, if keeps then <[ref re := e]> rx else rx)
  end.

Inductive TextQuery :=
| QString (s : string)
| QRegExp (re : RegExp).

Definition showQuery (q : TextQuery) : string :=
  match q with
  | QString s => s
  | QRegExp re => printed re
  end.

(** A matcher reads the document and may test regular expressions. *)
Definition Matcher : Type :=
  Dom.Node -> ElemSet -> RegExps -> Result ElemSet * RegExps.

Record LocatorMatcher := {
  description : string;
  match_ : Matcher;
}.

(** [const normalizeWhitespace = s => s.replace(/\s+/g, ' ').trim()] *)
Definition normalizeWhitespace (s : string) : string :=
  Js.trim (Js.replace_whitespace s).

(** The loop of [getNormalizedText] over [node.childNodes]. *)
Fixpoint ownText (s : string) (childNodes : list Dom.Node) : string :=
  match childNodes with
  | [] => s
  | Dom.Text data :: rest => ownText (s +:+ data) rest
  | _ :: rest => ownText s rest
  end.

Definition getNormalizedText (e : Dom.ElementData) (childNodes : list Dom.Node)
  : string :=
  if String.eqb (Dom.tagName e) "INPUT" || String.eqb (Dom.tagName e) "TEXTAREA"
  then Dom.value e
  else normalizeWhitespace (ownText "" childNodes).

(** [getNormalizedText] of the element a reference points to. *)
Definition textOf (doc : Dom.Node) (e : Dom.Element) : string :=
  match Dom.elementAt doc e with
  | Some (d, cs) => getNormalizedText d cs
  | None => ""
  end.

(** A predicate on elements, as the closures of this module are: it may
    test a regular expression. *)
Definition Predicate : Type := Dom.Element -> RegExps -> bool * RegExps.

(** [for (const d of ds) if (isMatch(d)) results.add(d)] *)
Fixpoint addWhere (isMatch : Predicate) (ds : list Dom.Element)
    (results : ElemSet) (rx : RegExps) : ElemSet * RegExps :=
  match ds with
  | [] => (results, rx)
  | d :: ds' =>
      let '(found, rx') := isMatch d rx in
      addWhere isMatch ds' (if found then set_add d results else results) rx'
  end.

Fixpoint matchDescendants_from (doc : Dom.Node) (isMatch : Predicate)
    (prev : list Dom.Element) (results : ElemSet) (rx : RegExps)
  : ElemSet * RegExps :=
  match prev with
  | [] => (results, rx)
  | e :: prev' =>
      let '(results', rx') :=
        addWhere isMatch (Dom.allDescendants doc e) results rx in
      matchDescendants_from doc isMatch prev' results' rx'
  end.

Definition matchDescendants (doc : Dom.Node) (prev : ElemSet)
    (isMatch : Predicate) (rx : RegExps) : ElemSet * RegExps :=
  matchDescendants_from doc isMatch prev [] rx.

Definition matchText (doc : Dom.Node) (prev : ElemSet) (text : string)
    (rx : RegExps) : ElemSet * RegExps :=
  matchDescendants doc prev
    (fun e rx => (Js.includes (textOf doc e) text, rx)) rx.

Definition matchRegExp (doc : Dom.Node) (prev : ElemSet) (re : RegExp)
    (rx : RegExps) : ElemSet * RegExps :=
  matchDescendants doc prev (fun e rx => test re (textOf doc e) rx) rx.

(** The predicate of [matchRole] on one element's attributes. *)
Definition hasRole (attrs : list (string * string)) (role : string) : bool :=
  let attr := default "" (Dom.getAttribute attrs "role") in
  let roles := map Js.trim (Js.split_space attr) in
  Js.array_includes roles role.

Definition roleOf (doc : Dom.Node) (role : string) (e : Dom.Element) : bool :=
  match Dom.elementAt doc e with
  | Some (d, _) => hasRole (Dom.attributes d) role
  | None => false
  end.

Definition matchRole (doc : Dom.Node) (prev : ElemSet) (role : string)
    (rx : RegExps) : ElemSet * RegExps :=
  matchDescendants doc prev (fun e rx => (roleOf doc role e, rx)) rx.

(** [isFound] in the loop of [filterText]. *)
Definition isFound (doc : Dom.Node) (s : TextQuery) : Predicate :=
  fun e rx =>
    match s with
    | QString s => (Js.includes (textOf doc e) s, rx)
    | QRegExp re => test re (textOf doc e) rx
    end.

Definition filterText (doc : Dom.Node) (prev : ElemSet) (s : TextQuery)
    (rx : RegExps) : ElemSet * RegExps :=
  addWhere (isFound doc s) prev [] rx.

(** The body of the step appended by [first()]. *)
Definition firstOf (prev : ElemSet) : Result ElemSet :=
  if length prev =? 0 then Ok []
  else match head prev with
       | None => Throw "No elements found"
       | Some elem => Ok [elem]
       end.

Definition isPrintable (keyCode : nat) : bool :=
  (33 <=? keyCode) && (keyCode <? 127).

Section Host.

(** The selector engine of the host: [None] for a selector that does not
    parse, else the test of one element of a document. *)
Context (css : string -> option (Dom.Node -> Dom.Element -> bool)).

(** The value setters, by their identity: what [element.value] reads after
    [setter.call(element, v)], or the exception the setter throws.  The
    setter of the host's prototype sanitizes what it is given: a text input
    drops line breaks, a select keeps the value of the option it finds. *)
Context (valueSetter : Dom.Setter -> Dom.ElementData -> list Dom.Node
                       -> string -> Result string).

(** [setter.call(element, v)] *)
Definition callSetter (setter : Dom.Setter) (element : Dom.Element)
    (v : string) : Eff unit :=
  fun w =>
    match Dom.elementAt (document w) element with
    | None => (Throw "TypeError: not an element", w)
    | Some (d, cs) =>
        match valueSetter setter d cs v with
        | Ok stored => writeValue element stored w
        | Throw m => (Throw m, w)
        end
    end.

Definition setElementValue (element : Dom.Element)
    (setValue : string -> string) : Eff unit :=
  fun w =>
    match Dom.elementAt (document w) element with
    | None => (Throw "TypeError: not an element", w)
    | Some (d, _) =>
        let directSetter := Dom.ownValueSetter d in
        let prototypeSetter := Dom.protoValueSetter d in
        let assign setter :=
          callSetter setter element (setValue (Dom.value d)) in
        let rest :=
          (match directSetter with
           | Some setter => assign setter
           | None => eff_ret tt
           end)
          >> eff_throw "element does not have a value setter" in
        match prototypeSetter with
        | Some setter =>
            if negb (bool_decide (directSetter = prototypeSetter))
            then assign setter w
            else rest w
        | None => rest w
        end
    end.

Definition querySelectorAll (doc : Dom.Node) (e : Dom.Element)
    (selector : string) : Result (list Dom.Element) :=
  match css selector with
  | None => Throw ("SyntaxError: '" +:+ selector +:+ "' is not a valid selector")
  | Some m => Ok (filter (fun d => m doc d = true) (Dom.allDescendants doc e))
  end.

Fixpoint matchQuerySelector_from (doc : Dom.Node) (selector : string)
    (prev : list Dom.Element) (results : ElemSet) : Result ElemSet :=
  match prev with
  | [] => Ok results
  | e :: prev' =>
      descendants ← querySelectorAll doc e selector;
      matchQuerySelector_from doc selector prev' (set_add_all descendants results)
  end.

Definition matchQuerySelector (doc : Dom.Node) (prev : ElemSet)
    (selector : string) : Result ElemSet :=
  matchQuerySelector_from doc selector prev [].

End Host.

End Match.

(** ** screen_locator.ts: the class [ScreenLocator] *)

Module ScreenLocator.
Import Match.

(** The arrays of matchers live in a heap; a locator holds a reference. *)
Abbreviation ArrayRef := nat.
Abbreviation Heap := (list (list LocatorMatcher)).

Definition deref (h : Heap) (r : ArrayRef) : list LocatorMatcher :=
  default [] (h !! r).

(** A new array: a reference no array had before. *)
Definition alloc (h : Heap) (a : list LocatorMatcher) : ArrayRef * Heap :=
  (length h, h ++ [a]).

Record ScreenLocator := {
  act : DomScreenAct;
  root : Dom.Element;
  matchers : ArrayRef;
}.

Definition of_ (act : DomScreenAct) (element : Dom.Element) (h : Heap)
  : ScreenLocator * Heap :=
  let '(r, h') := alloc h [] in
  ({| act := act; root := element; matchers := r |}, h').

(** [[...this.matchers, { description, match }]] is a new array. *)
Definition chainLocator (this : ScreenLocator) (description : string)
    (match_ : Matcher) (h : Heap) : ScreenLocator * Heap :=
  let '(r, h') :=
    alloc h (deref h (matchers this)
             ++ [{| description := description; match_ := match_ |}]) in
  ({| act := act this; root := root this; matchers := r |}, h').

Definition describe (h : Heap) (this : ScreenLocator) : list string :=
  map description (deref h (matchers this)).

Definition formatDescription (h : Heap) (this : ScreenLocator) : string :=
  Js.join " -> " (describe h this).

(** A step that reads the document only. *)
Definition reading (f : Dom.Node -> ElemSet -> Result ElemSet) : Matcher :=
  fun doc prev rx => (f doc prev, rx).

(** A step that cannot throw. *)
Definition returning
    (f : Dom.Node -> ElemSet -> RegExps -> ElemSet * RegExps) : Matcher :=
  fun doc prev rx => let '(found, rx') := f doc prev rx in (Ok found, rx').

(** The loop of [allElements] over the matchers. *)
Fixpoint applyMatchers (doc : Dom.Node) (ms : list LocatorMatcher)
    (found : ElemSet) (rx : RegExps) : Result ElemSet * RegExps :=
  match ms with
  | [] => (Ok found, rx)
  | m :: ms' =>
      match match_ m doc found rx with
      | (Ok found', rx') => applyMatchers doc ms' found' rx'
      | (Throw e, rx') => (Throw e, rx')
      end
  end.

(** A matcher run in the world: it reads the document and leaves the
    regular expressions it tested where they stopped. *)
Definition run (m : Matcher) (prev : ElemSet) : Eff ElemSet :=
  fun w =>
    let '(r, rx) := m (document w) prev (lastIndex w) in
    (r, setLastIndex rx w).

Definition allElements (h : Heap) (this : ScreenLocator)
  : Eff (list Dom.Element) :=
  run (fun doc found => applyMatchers doc (deref h (matchers this)) found)
    [root this].

Definition filterText (this : ScreenLocator) (s : TextQuery) (h : Heap)
  : ScreenLocator * Heap :=
  chainLocator this ("filterText(" +:+ showQuery s +:+ ")")
    (returning (fun doc prev => Match.filterText doc prev s)) h.

Definition locateRole (this : ScreenLocator) (role : string) (h : Heap)
  : ScreenLocator * Heap :=
  chainLocator this ("locateRole(" +:+ role +:+ ")")
    (returning (fun doc prev => matchRole doc prev role)) h.

Definition locateText (this : ScreenLocator) (s : TextQuery) (h : Heap)
  : ScreenLocator * Heap :=
  match s with
  | QRegExp re =>
      chainLocator this ("locateText(regexp: " +:+ printed re +:+ ")")
        (returning (fun doc prev => matchRegExp doc prev re)) h
  | QString s =>
      chainLocator this ("locateText(" +:+ s +:+ ")")
        (returning (fun doc prev => matchText doc prev s)) h
  end.

Definition first (this : ScreenLocator) (h : Heap) : ScreenLocator * Heap :=
  chainLocator this "first()" (reading (fun _ prev => firstOf prev)) h.

(** The two cardinality checks every single-element method starts with;
    [what] is the tail of the message, as in [to click]. *)
Definition single (h : Heap) (this : ScreenLocator) (what : string)
  : Eff Dom.Element :=
  eff_bind (allElements h this) (fun elems =>
    if length elems =? 0
    then eff_throw ("no elements found " +:+ what +:+ ": "
                    +:+ formatDescription h this)
    else if 1 <? length elems
    then eff_throw ("multiple elements found " +:+ what +:+ ": "
                    +:+ formatDescription h this)
    else match elems !! 0 with
         | Some elem => eff_ret elem
         | None => eff_throw "TypeError: elems[0] is undefined"
         end).

Definition element (h : Heap) (this : ScreenLocator) : Eff Dom.Element :=
  single h this "but expected one".

Definition click (h : Heap) (this : ScreenLocator) : Eff unit :=
  eff_bind (single h this "to click") (fun elem =>
  act this unit
    (dispatchEvent elem (FocusEvent "focus" bubbling) >>
     dispatchEvent elem (MouseEvent "click" bubbling) >>
     dispatchEvent elem (FocusEvent "blur" bubbling))).

(** [elem instanceof HTMLInputElement || ... HTMLTextAreaElement ||
    ... HTMLSelectElement] *)
Definition hasValue (i : Dom.ElementInterface) : bool :=
  match i with
  | Dom.HTMLInputElement | Dom.HTMLTextAreaElement | Dom.HTMLSelectElement =>
      true
  | _ => false
  end.

Definition dataOf (elem : Dom.Element) : Eff Dom.ElementData :=
  fun w =>
    match Dom.elementAt (document w) elem with
    | Some (d, _) => (Ok d, w)
    | None => (Throw "TypeError: not an element", w)
    end.

Definition blur (h : Heap) (this : ScreenLocator) : Eff unit :=
  eff_bind (single h this "to fill") (fun elem =>
  eff_bind (dataOf elem) (fun d =>
  act this unit
    ((if Dom.isHTMLElement (Dom.iface d)
      then record (CallBlur elem) else eff_ret tt) >>
     dispatchEvent elem (FocusEvent "blur" bubbling_composed)))).

Section Host.

Context (css : string -> option (Dom.Node -> Dom.Element -> bool)).

(** The table of [keypress.ts], which maps the name of a key to its event. *)
Context (KeyPress : string -> option KeyEv).

Context (valueSetter : Dom.Setter -> Dom.ElementData -> list Dom.Node
                       -> string -> Result string).

Definition locate (this : ScreenLocator) (selector : string) (h : Heap)
  : ScreenLocator * Heap :=
  if String.eqb selector "" then (this, h)
  else chainLocator this ("locate(" +:+ selector +:+ ")")
         (reading (fun doc prev => matchQuerySelector css doc prev selector)) h.

Definition press (h : Heap) (this : ScreenLocator) (name : string)
  : Eff unit :=
  eff_bind (single h this "to press") (fun elem =>
  eff_bind (dataOf elem) (fun d =>
  if negb (hasValue (Dom.iface d))
  then eff_throw ("cannot press key on tag: "
                  +:+ Js.toLowerCase (Dom.tagName d))
  else
    match KeyPress name with
    | None =>
        eff_throw ("unknown key: " +:+ name
                   +:+ "; maybe not yet added to KeyPress?")
    | Some keyEv =>
        act this unit
          (record (CallFocus elem) >>
           dispatchEvent elem (FocusEvent "focus" bubbling) >>
           dispatchEvent elem (KeyboardEvent "keydown" keyEv) >>
           dispatchEvent elem (KeyboardEvent "keyup" keyEv) >>
           (if isPrintable (keyCode keyEv)
            then setElementValue valueSetter elem (fun old => old +:+ key keyEv)
            else eff_ret tt) >>
           dispatchEvent elem (KeyboardEvent "keypress" keyEv) >>
           dispatchEvent elem (PlainEvent "input" bubbling) >>
           dispatchEvent elem (PlainEvent "change" bubbling))
    end)).

Definition fill (h : Heap) (this : ScreenLocator) (value : string)
  : Eff unit :=
  eff_bind (single h this "to fill") (fun elem =>
  eff_bind (dataOf elem) (fun d =>
  if negb (hasValue (Dom.iface d))
  then eff_throw ("cannot fill out tag: " +:+ Js.toLowerCase (Dom.tagName d))
  else
    act this unit
      (record (CallFocus elem) >>
       dispatchEvent elem (FocusEvent "focus" bubbling) >>
       setElementValue valueSetter elem (fun _ => value) >>
       dispatchEvent elem (PlainEvent "input" bubbling) >>
       dispatchEvent elem (PlainEvent "change" bubbling) >>
       record (CallBlur elem) >>
       dispatchEvent elem (FocusEvent "blur" bubbling_composed)))).

End Host.

End ScreenLocator.

(** ** dom_screen.ts: the class [DomScreen] over a render lifecycle *)

Module DomScreen.

Section Lifecycle.

Context {ROOT NODE : Type}.

Record RenderLifecycle := {
  createRoot : Dom.Element -> Eff ROOT;
  render_ : ROOT -> NODE -> Eff unit;
  destroyRoot : ROOT -> Eff unit;
  act : DomScreenAct;
}.

(** What [render] and its teardown ask of the host document: create the
    [dom-screen] container and append it to the body; tell whether an element
    has a parent node; remove it from its parent. *)
Record HostDocument := {
  appendContainer : Eff Dom.Element;
  hasParent : Dom.Element -> World -> bool;
  removeFromParent : Dom.Element -> Eff unit;
}.

Record DomScreen := {
  lifecycle : RenderLifecycle;
  cleanups : list (Eff unit);
}.

Context (host : HostDocument).

Definition setTitle (t : string) : Eff unit :=
  fun w =>
    (Ok tt, {| document := document w; URL := URL w; title := t;
               actions := actions w; lastIndex := lastIndex w |}).

(** The thunk [render] pushes on [cleanups]. *)
Definition teardown (lc : RenderLifecycle) (root : ROOT)
    (container : Dom.Element) : Eff unit :=
  act lc unit (destroyRoot lc root) >>
  (fun w =>
     if negb (hasParent host container w)
     then (Throw "container parentNode is null during cleanup.", w)
     else (removeFromParent host container >> setTitle "") w).

(** [render(node)]; the world of the model always has a document. *)
Definition render (this : DomScreen) (node : NODE) (h : ScreenLocator.Heap)
  : World -> Result ScreenLocator.ScreenLocator
             * DomScreen * ScreenLocator.Heap * World :=
  fun w =>
    let lc := lifecycle this in
    match eff_bind (appendContainer host) (fun container =>
          eff_bind (createRoot lc container) (fun root =>
          eff_bind (act lc unit (render_ lc root node)) (fun _ =>
          eff_ret (container, root)))) w with
    | (Throw m, w') => (Throw m, this, h, w')
    | (Ok (container, root), w') =>
        let this' :=
          {| lifecycle := lc;
             cleanups := cleanups this ++ [teardown lc root container] |} in
        let '(loc, h') := ScreenLocator.of_ (act lc) container h in
        (Ok loc, this', h', w')
    end.

(** The loop of [cleanup] from index [i] on; the list it returns holds the
    indices of the thunks it called, in the order of the calls. *)
Fixpoint runCleanups (i : nat) (thunks : list (Eff unit)) (w : World)
  : Result unit * list nat * World :=
  match thunks with
  | [] => (Ok tt, [], w)
  | thunk :: rest =>
      match thunk w with
      | (Ok _, w') =>
          let '(r, called, w'') := runCleanups (S i) rest w' in
          (r, i :: called, w'')
      | (Throw m, w') => (Throw m, [i], w')
      end
  end.

(** [cleanup()]: a thunk that throws ends the loop and the assignment
    [this.cleanups.length = 0] is not reached. *)
Definition cleanup (this : DomScreen) (w : World)
  : Result unit * list nat * DomScreen * World :=
  match runCleanups 0 (cleanups this) w with
  | (Ok _, called, w') =>
      (Ok tt, called, {| lifecycle := lifecycle this; cleanups := [] |}, w')
  | (Throw m, called, w') => (Throw m, called, this, w')
  end.

End Lifecycle.

Arguments RenderLifecycle : clear implicits.
Arguments DomScreen : clear implicits.

End DomScreen.

(** ** The earlier dom_screen.ts: static methods and a global [act]

    [screen_matchers.ts] is written against this class: it calls
    [DomScreen.globalAct] and the [locate] method of a screen. *)

Module StaticDomScreen.

Record DomScreen := {
  container : Dom.Element;
  loc : ScreenLocator.ScreenLocator;
}.

Definition initHintMsg : string :=
  "
HINT: call DomScreen.initTest() at the top of the test file. For example:

   import { act } from 'react';
   import { DomScreen } from 'dom-screen';

   DomScreen.initTest({ act, expect, afterEach });
".

Section Global.

(** The module variable [globalAct], set by [DomScreen.initTest]. *)
Context (globalAct_var : option DomScreenAct).

Definition isInit : bool := is_Some_b globalAct_var.

Definition globalAct : DomScreenAct :=
  fun A cb =>
    match globalAct_var with
    | None =>
        eff_throw ("DomScreen.initTest() not called before DomScreen.globalAct()."
                   +:+ initHintMsg)
    | Some act => act A cb
    end.


Context (css : string -> option (Dom.Node -> Dom.Element -> bool)).

Definition locate (this : DomScreen) (selector : string)
    (h : ScreenLocator.Heap)
  : ScreenLocator.ScreenLocator * ScreenLocator.Heap :=
  ScreenLocator.locate css (loc this) selector h.

End Global.

End StaticDomScreen.

(** ** tty.ts and testing.ts *)

Module tty.

Definition esc : string := String (ascii_of_nat 27) EmptyString.

Definition red (s : string) : string :=
  if String.eqb s "" then s else esc +:+ "[31m" +:+ s +:+ esc +:+ "[39m".

Definition green (s : string) : string :=
  if String.eqb s "" then s else esc +:+ "[32m" +:+ s +:+ esc +:+ "[39m".

Definition dim (s : string) : string :=
  if String.eqb s "" then s else esc +:+ "[2m" +:+ s +:+ esc +:+ "[22m".

End tty.

Module Testing.

(** The values the matchers print. *)
Inductive Shown :=
| ShownString (s : string)
| ShownElement (e : Dom.Element)
| ShownElements (es : list Dom.Element).

Definition formatMatcher (matcherName received expected : string)
    (isNot : bool) : string :=
  let hint := "" in
  let hint := hint +:+ tty.dim "expect(" in
  let hint := hint +:+ tty.red received in
  let hint := hint +:+ tty.dim ")" in
  let hint := if isNot then hint +:+ tty.dim ".not" else hint in
  let hint := hint +:+ tty.dim ("." +:+ matcherName +:+ "(") in
  let hint := hint +:+ tty.green expected in
  hint +:+ tty.dim ")".

Definition colorReceived (val : string) : string := tty.red val.

Definition colorExpected (val : string) : string := tty.green val.

Section Stringify.

(** [Testing.stringify]: how a value prints, given the document. *)
Context (stringify : Dom.Node -> Shown -> string).

Definition formatReceived (doc : Dom.Node) (val : Shown) : string :=
  colorReceived (stringify doc val).

Definition formatExpected (doc : Dom.Node) (val : Shown) : string :=
  colorExpected (stringify doc val).

End Stringify.

End Testing.

(** ** screen_matchers.ts *)

Module ScreenMatchers.
Import ScreenLocator.

(** What Jest hands to a matcher as [this]. *)
Record MatcherContext := {
  isNot : bool;
  promise : string;
}.

(** [message] is a thunk: it prints when it is called, in the world of that
    moment. *)
Record MatcherResult : Set := {
  pass : bool;
  message : World -> Result string * World;
}.

(** The receiver of [expect(...)], of type [unknown]: the three classes the
    matchers ask for with [instanceof], and anything else by the text
    the template literal prints for it. *)
Inductive Receiver :=
| RDomScreen (s : StaticDomScreen.DomScreen)
| RScreenLocator (l : ScreenLocator)
| RElement (e : Dom.Element)
| ROther (shown : string).

Definition SyncMatcher (T : Type) : Type :=
  MatcherContext -> Receiver -> T -> Heap -> Eff (MatcherResult * Heap).

(** A computation that returns or throws and leaves the world alone. *)
Definition settled {A} (r : Result A) : Eff A := fun w => (r, w).

(** A text printed from the document of the moment. *)
Definition printing (text : Dom.Node -> string) : Eff string :=
  fun w => (Ok (text (document w)), w).

(** What the loop of [waitForSuccess] did, in order: it called the wrapped
    matcher and got [r], or it slept. *)
Inductive Step :=
| Evaluate (r : Result MatcherResult)
| Sleep (millis : nat).

Section Matchers.

Context (globalAct_var : option DomScreenAct).
Context (css : string -> option (Dom.Node -> Dom.Element -> bool)).
Context (stringify : Dom.Node -> Testing.Shown -> string).
(** [new URL(url).pathname]; the constructor throws on what is no URL. *)
Context (pathname : string -> Result string).
(** What the pending work does to the world while a timer of so many
    milliseconds runs. *)
Context (settle : nat -> World -> World).

Definition verifyReceiver (receiver : Receiver) (h : Heap)
  : Result (ScreenLocator * Heap) :=
  match receiver with
  | RDomScreen s => Ok (StaticDomScreen.locate css s "" h)
  | RScreenLocator l => Ok (l, h)
  | RElement e => Ok (of_ (StaticDomScreen.globalAct globalAct_var) e h)
  | ROther shown =>
      Throw ("Expected receiver to be a DomScreen or ScreenLocator, got "
             +:+ shown)
  end.

Definition isScreenRoot (doc : Dom.Node) (loc : ScreenLocator) : bool :=
  match Dom.elementAt doc (root loc) with
  | Some (d, _) => String.eqb (Dom.tagName d) "DOM-SCREEN"
  | None => false
  end.

Definition describeLocator (h : Heap) (doc : Dom.Node) (loc : ScreenLocator)
  : string :=
  if isScreenRoot doc loc then
    let msg := "screen" in
    let locs := Js.join "." (describe h loc) in
    if negb (String.eqb locs "") then msg +:+ "." +:+ locs else msg
  else
    let msg := stringify doc (Testing.ShownElement (root loc)) in
    let locs := formatDescription h loc in
    if negb (String.eqb locs "") then msg +:+ " -> " +:+ locs else msg.

Definition formatReceivedLocatorResults (doc : Dom.Node)
    (elems : list Dom.Element) : string :=
  if length elems =? 0 then Testing.colorReceived "no elements"
  else Testing.formatReceived stringify doc
         (match elems with
          | [e] => Testing.ShownElement e
          | _ => Testing.ShownElements elems
          end).

(** [el.matches(selector)] *)
Definition matches (doc : Dom.Node) (el : Dom.Element) (selector : string)
  : Result bool :=
  match css selector with
  | None => Throw ("SyntaxError: '" +:+ selector +:+ "' is not a valid selector")
  | Some m => Ok (m doc el)
  end.

Fixpoint filterMatches (doc : Dom.Node) (selector : string)
    (elems : list Dom.Element) : Result (list Dom.Element) :=
  match elems with
  | [] => Ok []
  | el :: rest =>
      b ← matches doc el selector;
      kept ← filterMatches doc selector rest;
      Ok (if b : bool then el :: kept else kept)
  end.

Definition toMatchSelector : SyncMatcher string :=
  fun this receiver selector h =>
    eff_bind (settled (verifyReceiver receiver h)) (fun '(loc, h) =>
    eff_bind (allElements h loc) (fun all =>
    eff_bind (fun w => (filterMatches (document w) selector all, w))
      (fun gotDirect =>
    let '(desc, h) := locate css loc selector h in
    eff_bind (allElements h desc) (fun gotDesc =>
    let pass := (0 <? length gotDirect) || (0 <? length gotDesc) in
    let message := printing (fun doc =>
      Js.join "
"
        [ Testing.formatMatcher "toMatchSelector" (describeLocator h doc loc)
            selector (isNot this);
          "";
          "Expected: selector "
            +:+ Testing.formatExpected stringify doc (Testing.ShownString selector)
            +:+ " to" +:+ (if pass then " not" else "")
            +:+ " to match any element in the DOM root after applying locators";
          "DOM root: "
            +:+ Testing.formatReceived stringify doc (Testing.ShownElement (root loc));
          "Locators: " +:+ Testing.colorReceived (formatDescription h loc);
          "Matched:  "
            +:+ formatReceivedLocatorResults doc (gotDirect ++ gotDesc) ]) in
    eff_ret ({| pass := pass; message := message |}, h))))).

Definition toHaveClass : SyncMatcher string :=
  fun this receiver className h =>
    eff_bind (settled (verifyReceiver receiver h)) (fun '(loc, h) =>
    let classSel :=
      "." +:+ Js.join "." (map Js.trim (Js.split_space className)) in
    eff_bind (allElements h loc) (fun all =>
    eff_bind (fun w => (filterMatches (document w) classSel all, w))
      (fun gotDirect =>
    let '(desc, h) := locate css loc classSel h in
    eff_bind (allElements h desc) (fun gotDesc =>
    let pass := (0 <? length gotDirect) || (0 <? length gotDesc) in
    let message := printing (fun doc =>
      Js.join "
"
        [ Testing.formatMatcher "toHaveClass" (describeLocator h doc loc)
            className (isNot this);
          "";
          "Expected: class names "
            +:+ Testing.formatExpected stringify doc (Testing.ShownString className)
            +:+ " to" +:+ (if pass then " not" else "")
            +:+ " match any element in the DOM root after applying locators";
          "DOM root: "
            +:+ Testing.formatReceived stringify doc (Testing.ShownElement (root loc));
          "Locators: " +:+ Testing.colorReceived (formatDescription h loc);
          "Matched:  "
            +:+ formatReceivedLocatorResults doc (gotDirect ++ gotDesc) ]) in
    eff_ret ({| pass := pass; message := message |}, h))))).

Definition toContainText : SyncMatcher Match.TextQuery :=
  fun this receiver text h =>
    eff_bind (settled (verifyReceiver receiver h)) (fun '(loc, h) =>
    let '(filtered, h) := ScreenLocator.filterText loc text h in
    eff_bind (allElements h filtered) (fun gotDirect =>
    let pass := 0 <? length gotDirect in
    let message := printing (fun doc =>
      let kind :=
        match text with
        | Match.QString _ => "contain substring"
        | Match.QRegExp _ => "match regexp"
        end in
      Js.join "
"
        [ Testing.formatMatcher "toContainText" (describeLocator h doc loc)
            (Match.showQuery text) (isNot this);
          "";
          "Expected: one element to " +:+ kind +:+ " " +:+ Match.showQuery text
            +:+ " to" +:+ (if pass then " not" else "")
            +:+ " match DOM root node after applying locators";
          "DOM root: "
            +:+ Testing.formatReceived stringify doc (Testing.ShownElement (root loc));
          "Locators: " +:+ Testing.colorReceived (formatDescription h loc);
          "Matched:  " +:+ formatReceivedLocatorResults doc gotDirect ]) in
    eff_ret ({| pass := pass; message := message |}, h))).

Definition toHaveURLPath : SyncMatcher string :=
  fun this receiver path h =>
    eff_bind (settled (verifyReceiver receiver h)) (fun '(loc, h) =>
    eff_bind (fun w => (pathname (URL w), w)) (fun gotPath =>
    let pass := String.eqb gotPath path in
    let message := printing (fun doc =>
      Js.join "
"
        [ Testing.formatMatcher "toHaveURL" (describeLocator h doc loc)
            path (isNot this);
          "";
          "Expected: URL "
            +:+ Testing.formatExpected stringify doc (Testing.ShownString path)
            +:+ " to" +:+ (if pass then " not" else "")
            +:+ " match the current page URL";
          "Current URL: "
            +:+ Testing.formatReceived stringify doc (Testing.ShownString gotPath) ]) in
    eff_ret ({| pass := pass; message := message |}, h))).


Definition toBeInDocument : SyncMatcher unit :=
  fun this receiver _ h =>
    eff_bind (settled (verifyReceiver receiver h)) (fun '(loc, h) =>
    eff_bind (allElements h loc) (fun all =>
    let pass := 0 <? length all in
    let message :=
      eff_bind (allElements h loc) (fun again =>
      printing (fun doc =>
        Js.join "
"
          [ Testing.formatMatcher "toBeInDocument" (describeLocator h doc loc)
              "" (isNot this);
            "";
            "Expected: to be in the document";
            "DOM root: "
              +:+ Testing.formatReceived stringify doc
                    (Testing.ShownElement (root loc));
            "Locators: " +:+ Testing.colorReceived (formatDescription h loc);
            "Matched:  " +:+ formatReceivedLocatorResults doc again ])) in
    eff_ret ({| pass := pass; message := message |}, h))).

(** What a call of the wrapped matcher leaves behind. *)
Record Waited := {
  outcome : Result MatcherResult;
  heap : Heap;
  world : World;
  steps : list Step;
}.

Section Retry.

Context {T : Type} (fn : SyncMatcher T).
Context (this : MatcherContext) (receiver : Receiver) (arg : T).

(** The [for] loop of [waitForSuccess] with [todo] turns left, and what
    follows it. *)
Fixpoint attempts (todo : nat) (sleepMillis : nat)
    (result : option MatcherResult) (h : Heap) (w : World)
    (done : list Step) : Waited :=
  match todo with
  | 0 =>
      match result with
      | None =>
          {| outcome := Throw "result must be defined";
             heap := h; world := w; steps := done |}
      | Some r => {| outcome := Ok r; heap := h; world := w; steps := done |}
      end
  | S todo' =>
      match fn this receiver arg h w with
      | (Throw m, w') =>
          {| outcome := Throw m; heap := h; world := w';
             steps := done ++ [Evaluate (Throw m)] |}
      | (Ok (result', h'), w') =>
          let success := negb (Bool.eqb (isNot this) (pass result')) in
          if success
          then {| outcome := Ok result'; heap := h'; world := w';
                  steps := done ++ [Evaluate (Ok result')] |}
          else attempts todo' (sleepMillis * 2) (Some result') h'
                 (settle sleepMillis w')
                 (done ++ [Evaluate (Ok result'); Sleep sleepMillis])
      end
  end.

(** The callback handed to [DomScreen.globalAct]: what it resolves the
    promise with, or the exception that leaves it. *)
Definition retrying (h : Heap)
  : Eff (Result MatcherResult * Heap * list Step) :=
  fun w =>
    let run := attempts 4 5 None h w [] in
    (Ok (outcome run, heap run, steps run), world run).

(** The matcher [waitForSuccess(fn)], called on [receiver] and [arg]. *)
Definition waitForSuccess (h : Heap) (w : World) : Waited :=
  match StaticDomScreen.globalAct globalAct_var _ (retrying h) w with
  | (Ok (o, h', done), w') =>
      {| outcome := o; heap := h'; world := w'; steps := done |}
  | (Throw m, w') =>
      {| outcome := Throw m; heap := h; world := w'; steps := [] |}
  end.

End Retry.




End Matchers.

End ScreenMatchers.
(** ** A document to run the definitions on

    The tree of the repository's [filterText] test, below the container the
    screen mounts: reference [[]] is the container, [[0]] the outer [div]. *)

Module Fixture.
Import Dom.

Definition html (tag : string) (attrs : list (string * string))
    (children : list Node) : Node :=
  Elem {| tagName := tag; iface := HTMLElement; attributes := attrs;
          value := ""; ownValueSetter := None; protoValueSetter := None |}
       children.

(** An [<input>] of the host: the value accessor sits on the prototype. *)
Definition input (attrs : list (string * string)) (v : string) : Node :=
  Elem {| tagName := "INPUT"; iface := HTMLInputElement; attributes := attrs;
          value := v; ownValueSetter := None; protoValueSetter := Some 0 |}
       [].

Definition alphabet : Node :=
  html "DOM-SCREEN" []
    [ html "DIV" [("id", "a")]
        [ Text "alpha";
          html "DIV" [("id", "ab")] [Text "alpha bravo"];
          html "DIV" [("id", "abc")] [Text "alpha bravo charlie"];
          html "DIV" [("id", "abcd")] [Text "alpha bravo charlie delta"] ] ].

Definition form : Node :=
  html "DOM-SCREEN" []
    [ html "DIV" [] [ Text "Prefix"; input [("role", "textbox")] "" ] ].

Definition world (doc : Node) : World :=
  {| document := doc; URL := "http://localhost/"; title := "";
     actions := []; lastIndex := ∅ |}.

(** The pattern that is the literal [text]: it matches at index [i] of [s]
    when [text] stands there. *)
Definition literal (text : string) (s : string) (i : nat) : option nat :=
  if String.prefix text (String.substring i (String.length s - i) s)
  then Some (i + String.length text) else None.

(** The regular expressions [/bravo/] and [/bravo/g], two objects. *)
Definition bravo : Match.RegExp :=
  {| Match.ref := 0; Match.printed := "/bravo/"; Match.global := false;
     Match.sticky := false; Match.matchAt := literal "bravo" |}.

Definition bravo_g : Match.RegExp :=
  {| Match.ref := 1; Match.printed := "/bravo/g"; Match.global := true;
     Match.sticky := false; Match.matchAt := literal "bravo" |}.

(** Setters that store what they are given, and a host whose setter drops
    the line feeds, as the one of a text input does. *)
Definition verbatim (setter : Setter) (d : ElementData) (cs : list Node)
    (v : string) : Result string := Ok v.

Fixpoint withoutLineFeeds (v : string) : string :=
  match v with
  | EmptyString => EmptyString
  | String c v' =>
      if Ascii.eqb c (ascii_of_nat 10) then withoutLineFeeds v'
      else String c (withoutLineFeeds v')
  end.

Definition singleLine (setter : Setter) (d : ElementData) (cs : list Node)
    (v : string) : Result string := Ok (withoutLineFeeds v).

(** A selector engine that knows type selectors only: [div] selects the
    elements whose tag name is [DIV]; anything with a space or a bracket
    does not parse. *)
Definition tagCss (selector : string)
  : option (Node -> Element -> bool) :=
  if Js.includes selector " " || Js.includes selector "["
     || String.eqb selector ""
  then None
  else Some (fun doc e =>
               match elementAt doc e with
               | Some (d, _) => String.eqb (Js.toLowerCase (tagName d)) selector
               | None => false
               end).

(** Two entries of a key table with the key codes of the DOM. *)
Definition keys (name : string) : option KeyEv :=
  if String.eqb name "F" then Some {| key := "F"; keyCode := 70 |}
  else if String.eqb name "Enter" then Some {| key := "Enter"; keyCode := 13 |}
  else None.


(** The locator of the container with no step, in a heap that holds its
    empty array, and the locator [screen.locate('div')]. *)
Definition screen : ScreenLocator.ScreenLocator :=
  {| ScreenLocator.act := plainAct; ScreenLocator.root := [];
     ScreenLocator.matchers := 0 |}.

Definition heap0 : ScreenLocator.Heap := [[]].

Definition divs : ScreenLocator.ScreenLocator * ScreenLocator.Heap :=
  ScreenLocator.locate tagCss screen "div" heap0.

Definition inputs : ScreenLocator.ScreenLocator * ScreenLocator.Heap :=
  ScreenLocator.locate tagCss screen "input" heap0.

(** A lifecycle and a host that only record what they are asked: the
    [n]-th container is the reference [[n]]. *)
Definition counting : DomScreen.RenderLifecycle Element string :=
  {| DomScreen.createRoot := fun container => eff_ret container;
     DomScreen.render_ := fun root content =>
       dispatchEvent root (PlainEvent ("render " +:+ content) bubbling);
     DomScreen.destroyRoot := fun root =>
       dispatchEvent root (PlainEvent "unmount" bubbling);
     DomScreen.act := plainAct |}.









(** How the fixtures print a value, and the path of their URLs. *)
Definition shown (doc : Node) (v : Testing.Shown) : string :=
  match v with
  | Testing.ShownString s => s
  | Testing.ShownElement _ => "<element>"
  | Testing.ShownElements _ => "<elements>"
  end.

Definition pathOf (url : string) : Result string :=
  if String.prefix "http://localhost" url
  then Ok (String.substring 16 (String.length url - 16) url)
  else Throw "TypeError: Invalid URL".

(** A world in which nothing is pending, and one in which a navigation to
    [/next] completes during the first sleep. *)
Definition still (millis : nat) (w : World) : World := w.

Definition navigating (millis : nat) (w : World) : World :=
  {| document := document w; URL := "http://localhost/next";
     title := title w; actions := actions w; lastIndex := lastIndex w |}.

Definition positive : ScreenMatchers.MatcherContext :=
  {| ScreenMatchers.isNot := false; ScreenMatchers.promise := "" |}.

End Fixture.

(** ** The vocabulary of the statements *)

Import Match ScreenLocator ScreenMatchers.

(** [s] starts with a code unit that is not whitespace. *)
Definition starts_word (s : string) : bool :=
  match s with
  | EmptyString => false
  | String c _ => negb (Js.is_space c)
  end.

(** The maximal runs of non-whitespace code units of [s], in order. *)
Fixpoint tokens (s : string) : list string :=
  match s with
  | EmptyString => []
  | String c s' =>
      let ts := tokens s' in
      if Js.is_space c then ts
      else if starts_word s'
           then match ts with
                | w :: ws => String c w :: ws
                | [] => [String c ""]
                end
           else String c "" :: ts
  end.

(** What a chaining call appended: the last matcher of the new array. *)
Definition appended (r : ScreenLocator * Heap) : option LocatorMatcher :=
  last (deref r.2 (matchers r.1)).

(** The step a chaining call appended, run on a set. *)
Definition runAppended (r : ScreenLocator * Heap) : Matcher :=
  fun doc prev rx =>
    match appended r with
    | Some m => match_ m doc prev rx
    | None => (Ok prev, rx)
    end.

(** A predicate that tests no regular expression. *)
Definition pureMatch (p : Dom.Element -> bool) : Predicate :=
  fun d rx => (p d, rx).

(** The descendants of the members of [prev] that satisfy [p], each once,
    in the order in which the loops of [matchDescendants] meet them. *)
Definition descendantsWhere (doc : Dom.Node) (prev : ElemSet)
    (p : Dom.Element -> bool) : ElemSet :=
  fold_left
    (fun results e =>
       fold_left
         (fun results d => if p d then set_add d results else results)
         (Dom.allDescendants doc e) results)
    prev [].

(** The pattern of [re] matches somewhere in [s]. *)
Definition matchesIn (re : RegExp) (s : string) : bool :=
  is_Some_b (searchFrom (matchAt re s) (S (String.length s)) 0).

(** The own text of [e] holds the string, or the pattern matches somewhere
    in it. *)
Definition queryMatches (doc : Dom.Node) (q : TextQuery) (e : Dom.Element)
  : bool :=
  match q with
  | QString s => Js.includes (textOf doc e) s
  | QRegExp re => matchesIn re (textOf doc e)
  end.

(** A string, or a regular expression with neither the [g] nor the [y]
    flag: its [test] keeps no position. *)
Definition stateless (q : TextQuery) : bool :=
  match q with
  | QString _ => true
  | QRegExp re => negb (global re || sticky re)
  end.

(** The inner loop of [Dom.descendants] over the children, from index [i]. *)
Definition childrenFrom (i : nat) (l : list Dom.Node) : list Dom.Element :=
  (fix children (i : nat) (l : list Dom.Node) : list Dom.Element :=
     match l with
     | [] => []
     | c :: l' =>
         match c with
         | Dom.Elem _ _ => [[i]]
         | _ => []
         end ++ map (cons i) (Dom.descendants c) ++ children (S i) l'
     end) i l.

(** [d] lies strictly below a member of [prev]. *)
Definition strictlyBelow (prev : ElemSet) (d : Dom.Element) : Prop :=
  exists e q, e ∈ prev /\ q <> [] /\ d = e ++ q.

(** [r] is what one of the descendant steps of [this] returns. *)
Definition descendantStep
    (css : string -> option (Dom.Node -> Dom.Element -> bool))
    (this : ScreenLocator) (h : Heap) (r : ScreenLocator * Heap) : Prop :=
  (exists selector, selector <> "" /\ r = locate css this selector h)
  \/ (exists s, r = locateText this s h)
  \/ (exists role, r = locateRole this role h).

(** The chaining methods with their arguments. *)
Inductive ChainOp :=
| OpLocate (selector : string)
| OpLocateText (s : TextQuery)
| OpLocateRole (role : string)
| OpFilterText (s : TextQuery)
| OpFirst.

Definition chain (css : string -> option (Dom.Node -> Dom.Element -> bool))
    (op : ChainOp) (this : ScreenLocator) (h : Heap)
  : ScreenLocator * Heap :=
  match op with
  | OpLocate selector => locate css this selector h
  | OpLocateText s => locateText this s h
  | OpLocateRole role => locateRole this role h
  | OpFilterText s => ScreenLocator.filterText this s h
  | OpFirst => first this h
  end.

(** The space that [s.replace(/\s+/g, ' ')] leaves in front, which
    [trimEnd] keeps unless nothing follows it. *)
Definition leading (in_run : bool) (s : string) : string :=
  match s, tokens s with
  | String c _, _ :: _ => if Js.is_space c && negb in_run then " " else ""
  | _, _ => ""
  end.

(** The text of the direct text-node children, in order; what is inside a
    child element does not count. *)
Fixpoint directText (childNodes : list Dom.Node) : string :=
  match childNodes with
  | [] => ""
  | Dom.Text data :: rest => data +:+ directText rest
  | _ :: rest => directText rest
  end.

Fixpoint all_chars (P : ascii -> bool) (s : string) : bool :=
  match s with
  | EmptyString => true
  | String c s' => P c && all_chars P s'
  end.

(** No whitespace in [s] but the space character. *)
Definition spaceSeparated (s : string) : bool :=
  all_chars (fun c => negb (Js.is_space c) || Ascii.eqb c " ") s.

(** No whitespace in [s] at all. *)
Definition noWhitespace (s : string) : bool :=
  all_chars (fun c => negb (Js.is_space c)) s.

Definition nonEmpty (s : string) : bool := negb (String.eqb s "").

(** The current value of the element a reference points to. *)
Definition valueOf (w : World) (elem : Dom.Element) : option string :=
  (fun p => Dom.value p.1) <$> Dom.elementAt (document w) elem.

(** The value accessor of the host: on the prototype, and not the
    element's own. *)
Definition nativeValue (d : Dom.ElementData) : Prop :=
  is_Some_b (Dom.protoValueSetter d) = true
  /\ Dom.ownValueSetter d <> Dom.protoValueSetter d.


(** The result the wrapper resolved with, if it did. *)
Definition outcome_of (run : Waited) : option MatcherResult :=
  match outcome run with Ok r => Some r | Throw _ => None end.


(** A result the loop does not stop at: the matcher returned, and what it
    returned is a failure for Jest ([pass] equal to [isNot]). *)
Definition failing (this : MatcherContext) (r : Result MatcherResult) : bool :=
  match r with
  | Ok res => Bool.eqb (isNot this) (pass res)
  | Throw _ => false
  end.


(** The description a chaining call appends; none for [locate('')]. *)
Definition descriptionOf (op : ChainOp) : list string :=
  match op with
  | OpLocate "" => []
  | OpLocate selector => ["locate(" +:+ selector +:+ ")"]
  | OpLocateText (QString s) => ["locateText(" +:+ s +:+ ")"]
  | OpLocateText (QRegExp re) => ["locateText(regexp: " +:+ printed re +:+ ")"]
  | OpLocateRole role => ["locateRole(" +:+ role +:+ ")"]
  | OpFilterText s => ["filterText(" +:+ showQuery s +:+ ")"]
  | OpFirst => ["first()"]
  end.

(** What the step of a chaining call does to a set; [locate('')] appends
    no step. *)
Definition stepOf (css : string -> option (Dom.Node -> Dom.Element -> bool))
    (op : ChainOp) : Matcher :=
  match op with
  | OpLocate "" => reading (fun _ prev => Ok prev)
  | OpLocate selector =>
      reading (fun doc prev => matchQuerySelector css doc prev selector)
  | OpLocateText (QString s) => returning (fun doc prev => matchText doc prev s)
  | OpLocateText (QRegExp re) =>
      returning (fun doc prev => matchRegExp doc prev re)
  | OpLocateRole role => returning (fun doc prev => matchRole doc prev role)
  | OpFilterText s => returning (fun doc prev => Match.filterText doc prev s)
  | OpFirst => reading (fun _ prev => firstOf prev)
  end.

(** The reference points to an element of the document. *)
Definition isElement (doc : Dom.Node) (d : Dom.Element) : Prop :=
  exists data cs, Dom.elementAt doc d = Some (data, cs).

(** The world after more actions were recorded. *)
Definition logged (w : World) (more : list Action) : World :=
  {| document := document w; URL := URL w; title := title w;
     actions := actions w ++ more; lastIndex := lastIndex w |}.

(** The world with another document. *)
Definition withDocument (w : World) (doc : Dom.Node) : World :=
  {| document := doc; URL := URL w; title := title w; actions := actions w;
     lastIndex := lastIndex w |}.

(** The lengths of the sleeps among the steps, in order. *)
Definition slept (done : list Step) : list nat :=
  omap (fun s => match s with Sleep millis => Some millis | Evaluate _ => None end)
    done.

(** Whether a matcher passed, or what it threw. *)
Definition passOf (r : Result (MatcherResult * Heap) * World) : Result bool :=
  match r.1 with
  | Ok (result, _) => Ok (pass result)
  | Throw m => Throw m
  end.

(** [s] with a dot in the place of every space character. *)
Fixpoint dotted (s : string) : string :=
  match s with
  | EmptyString => EmptyString
  | String c s' => String (if Ascii.eqb c " " then "."%char else c) (dotted s')
  end.

(** A word: not empty and without whitespace. *)
Definition isWord (s : string) : Prop := s <> "" /\ noWhitespace s = true.

(** What a terminal shows of [s]: the text without its colour sequences,
    each from an escape character up to the next [m]. *)
Fixpoint shownFrom (in_sequence : bool) (s : string) : string :=
  match s with
  | EmptyString => ""
  | String c s' =>
      if in_sequence then shownFrom (negb (Ascii.eqb c "m")) s'
      else if Ascii.eqb c (ascii_of_nat 27) then shownFrom true s'
      else String c (shownFrom false s')
  end.

Definition shown (s : string) : string := shownFrom false s.

(** No escape character in [s]. *)
Definition noEscape (s : string) : bool :=
  all_chars (fun c => negb (Ascii.eqb c (ascii_of_nat 27))) s.

(** * Properties *)

Example alphabet_locateText :
  Match.matchText Fixture.alphabet [[]] "alpha" ∅
  = ([[0]; [0; 1]; [0; 2]; [0; 3]], ∅).
Proof. reflexivity. Qed.

Example alphabet_filterText :
  Match.filterText Fixture.alphabet [[0]; [0; 1]; [0; 2]; [0; 3]]
    (Match.QString "bravo") ∅ = ([[0; 1]; [0; 2]; [0; 3]], ∅).
Proof. reflexivity. Qed.

Example alphabet_locate_div :
  Match.matchQuerySelector Fixture.tagCss Fixture.alphabet [[]] "div"
  = Ok [[0]; [0; 1]; [0; 2]; [0; 3]].
Proof. reflexivity. Qed.

Example normalize_ex :
  Match.normalizeWhitespace "  a
 b  " = "a b".
Proof. reflexivity. Qed.

Example split_ex : Js.split_space "a  b" = ["a"; ""; "b"].
Proof. reflexivity. Qed.

Example tokens_ex : tokens " ab  c " = ["ab"; "c"].
Proof. reflexivity. Qed.

(** ** The step [first()] *)

Lemma deref_alloc (h : Heap) (a : list LocatorMatcher) :
  deref (alloc h a).2 (alloc h a).1 = a.
Proof.
  unfold deref, alloc. simpl.
  rewrite lookup_app_r by lia.
  by rewrite Nat.sub_diag.
Qed.

Lemma chainLocator_array (this : ScreenLocator) (d : string) (m : Matcher)
    (h : Heap) :
  deref (chainLocator this d m h).2 (matchers (chainLocator this d m h).1)
  = deref h (matchers this) ++ [{| description := d; match_ := m |}].
Proof. unfold chainLocator. simpl. apply deref_alloc. Qed.

Lemma appended_chainLocator (this : ScreenLocator) (d : string) (m : Matcher)
    (h : Heap) :
  appended (chainLocator this d m h)
  = Some {| description := d; match_ := m |}.
Proof. unfold appended. rewrite chainLocator_array. apply last_snoc. Qed.

(** C10: the step that [first()] appends never throws.  On the empty set
    it gives the empty set, on a set that starts with [elem] it gives the
    set of [elem] alone; the branch that throws [No elements found] is
    never taken.  The step tests no regular expression. *)
Theorem first_total (this : ScreenLocator) (h : Heap) (doc : Dom.Node)
    (prev : ElemSet) (rx : RegExps) :
  firstOf prev = Ok (match prev with [] => [] | elem :: _ => [elem] end)
  /\ appended (first this h)
     = Some {| description := "first()";
               match_ := reading (fun _ prev => firstOf prev) |}
  /\ runAppended (first this h) doc prev rx = (Ok (take 1 prev), rx).
Proof.
  assert (Hf : firstOf prev = Ok (take 1 prev)) by (destruct prev; reflexivity).
  split; [by destruct prev|].
  split; [apply appended_chainLocator|].
  unfold runAppended, first. rewrite appended_chainLocator.
  unfold reading. simpl. by rewrite Hf.
Qed.

(** ** Sets in insertion order *)

Lemma elem_of_set_add (x e : Dom.Element) (s : ElemSet) :
  x ∈ set_add e s <-> x = e \/ x ∈ s.
Proof.
  unfold set_add. case_bool_decide as He.
  - split; [tauto|]. intros [->|]; done.
  - rewrite elem_of_app, list_elem_of_singleton. tauto.
Qed.

Lemma elem_of_set_add_all (x : Dom.Element) (es : list Dom.Element)
    (s : ElemSet) :
  x ∈ set_add_all es s <-> x ∈ es \/ x ∈ s.
Proof.
  unfold set_add_all. revert s.
  induction es as [|e es IH]; intros s; simpl.
  - rewrite elem_of_nil. tauto.
  - rewrite IH, elem_of_set_add, elem_of_cons. tauto.
Qed.

Lemma elem_of_add_where (P : Dom.Element -> bool) (x : Dom.Element)
    (ds : list Dom.Element) (s : ElemSet) :
  x ∈ fold_left (fun results d => if P d then set_add d results else results)
        ds s
  <-> (x ∈ ds /\ P x = true) \/ x ∈ s.
Proof.
  revert s. induction ds as [|d ds IH]; intros s; simpl.
  - rewrite elem_of_nil. tauto.
  - rewrite IH, elem_of_cons. destruct (P d) eqn:Hd.
    + rewrite elem_of_set_add. split.
      * intros [[? ?]|[->|?]]; auto.
      * intros [[[->|?] ?]|?]; auto.
    + split.
      * intros [[? ?]|?]; auto.
      * intros [[[->|?] ?]|?]; auto. congruence.
Qed.

(** ** The loops with a predicate that keeps a position *)

Lemma addWhere_pure (p : Dom.Element -> bool) (ds : list Dom.Element)
    (s : ElemSet) (rx : RegExps) :
  addWhere (pureMatch p) ds s rx
  = (fold_left (fun results d => if p d then set_add d results else results)
       ds s, rx).
Proof. revert s. induction ds as [|d ds IH]; intros s; [done|apply IH]. Qed.

Lemma addWhere_ext (P Q : Predicate) (ds : list Dom.Element) (s : ElemSet)
    (rx : RegExps) :
  (forall d rx0, P d rx0 = Q d rx0) ->
  addWhere P ds s rx = addWhere Q ds s rx.
Proof.
  intros Heq. revert s rx. induction ds as [|d ds IH]; intros s rx; [done|].
  simpl. rewrite Heq. destruct (Q d rx) as [found rx']. apply IH.
Qed.

Lemma matchDescendants_pure (doc : Dom.Node) (prev : ElemSet)
    (p : Dom.Element -> bool) (rx : RegExps) :
  matchDescendants doc prev (pureMatch p) rx = (descendantsWhere doc prev p, rx).
Proof.
  unfold matchDescendants, descendantsWhere. generalize (@nil Dom.Element).
  induction prev as [|e prev IH]; intros acc; [done|]. simpl.
  rewrite addWhere_pure. apply IH.
Qed.

Lemma elem_of_addWhere (isMatch : Predicate) (x : Dom.Element)
    (ds : list Dom.Element) (s : ElemSet) (rx : RegExps) :
  x ∈ (addWhere isMatch ds s rx).1 ->
  (x ∈ ds /\ exists rx0, (isMatch x rx0).1 = true) \/ x ∈ s.
Proof.
  revert s rx. induction ds as [|d ds IH]; intros s rx; simpl; [auto|].
  destruct (isMatch d rx) as [found rx'] eqn:Hd. intros Hx.
  destruct (IH _ _ Hx) as [[Hin Hm]|Hin].
  - left. split; [by right|done].
  - destruct found; [|by right].
    apply elem_of_set_add in Hin as [->|Hin]; [|by right].
    left. split; [left|]. exists rx. by rewrite Hd.
Qed.

Lemma elem_of_matchDescendants (doc : Dom.Node) (prev : ElemSet)
    (isMatch : Predicate) (rx : RegExps) (d : Dom.Element) :
  d ∈ (matchDescendants doc prev isMatch rx).1 ->
  exists e, e ∈ prev /\ d ∈ Dom.allDescendants doc e
            /\ exists rx0, (isMatch d rx0).1 = true.
Proof.
  unfold matchDescendants.
  assert (G : forall acc rx,
    d ∈ (matchDescendants_from doc isMatch prev acc rx).1 ->
    (exists e, e ∈ prev /\ d ∈ Dom.allDescendants doc e
               /\ exists rx0, (isMatch d rx0).1 = true)
    \/ d ∈ acc).
  { induction prev as [|e prev IH]; intros acc rx0; simpl; [auto|].
    destruct (addWhere isMatch (Dom.allDescendants doc e) acc rx0)
      as [results rx1] eqn:Hadd.
    intros Hd. destruct (IH _ _ Hd) as [(e' & He' & Hrest)|Hin].
    - left. exists e'. split; [by right|done].
    - pose proof (elem_of_addWhere isMatch d (Dom.allDescendants doc e)
                    acc rx0) as Hw.
      rewrite Hadd in Hw. destruct (Hw Hin) as [[Hin' Hm]|Hin']; [|by right].
      left. exists e. split; [left|done]. }
  intros Hd. destruct (G _ _ Hd) as [?|Hin]; [done|].
  by apply elem_of_nil in Hin.
Qed.

(** ** Regular expressions *)

Lemma searchFrom_Some (tryAt : nat -> option nat) (fuel i0 e : nat) :
  searchFrom tryAt fuel i0 = Some e ->
  exists i, i0 <= i < i0 + fuel /\ tryAt i = Some e.
Proof.
  revert i0. induction fuel as [|fuel IH]; intros i0; simpl; [done|].
  destruct (tryAt i0) as [e'|] eqn:Hi.
  - intros [= ->]. exists i0. split; [lia|done].
  - intros H. destruct (IH _ H) as (i & Hi' & Hm). exists i. split; [lia|done].
Qed.

Lemma searchFrom_finds (tryAt : nat -> option nat) (fuel i0 i e : nat) :
  i0 <= i < i0 + fuel -> tryAt i = Some e ->
  is_Some_b (searchFrom tryAt fuel i0) = true.
Proof.
  revert i0. induction fuel as [|fuel IH]; intros i0 Hi Hm; [lia|]. simpl.
  destruct (tryAt i0) as [e'|] eqn:Hi0; [done|].
  apply IH; [|done]. destruct (decide (i = i0)) as [->|]; [congruence|lia].
Qed.

Lemma test_stateless (re : RegExp) (s : string) (rx : RegExps) :
  global re || sticky re = false ->
  test re s rx = (matchesIn re s, rx).
Proof.
  intros Hflags. unfold test, matchesIn. rewrite Hflags.
  apply orb_false_elim in Hflags as [_ ->].
  change (String.length s <? 0) with false. cbv iota.
  rewrite Nat.sub_0_r. by destruct (searchFrom _ _ _).
Qed.

Lemma test_true (re : RegExp) (s : string) (rx : RegExps) :
  (test re s rx).1 = true -> matchesIn re s = true.
Proof.
  unfold test, matchesIn.
  set (start := if global re || sticky re then default 0 (rx !! ref re) else 0).
  destruct (Nat.ltb_spec (String.length s) start) as [|Hle]; [done|].
  destruct (sticky re).
  - destruct (matchAt re s start) as [e|] eqn:Hm; [|done]. intros _.
    apply (searchFrom_finds _ _ 0 start e); [lia|done].
  - destruct (searchFrom _ _ start) as [e|] eqn:Hm; [|done]. intros _.
    apply searchFrom_Some in Hm as (i & Hi & Hm).
    apply (searchFrom_finds _ _ 0 i e); [lia|done].
Qed.

Lemma isFound_stateless (doc : Dom.Node) (s : TextQuery) :
  stateless s = true ->
  forall e rx, isFound doc s e rx = pureMatch (queryMatches doc s) e rx.
Proof.
  intros Hs e rx. destruct s as [s|re]; [done|]. simpl in *.
  apply test_stateless. by apply negb_true_iff.
Qed.

Lemma isFound_true (doc : Dom.Node) (s : TextQuery) (e : Dom.Element)
    (rx : RegExps) :
  (isFound doc s e rx).1 = true -> queryMatches doc s e = true.
Proof. destruct s as [s|re]; [done|]. apply test_true. Qed.

(** ** Descendants are strictly below *)

Lemma descendants_nonempty (n : Dom.Node) (p : Dom.Element) :
  p ∈ Dom.descendants n -> p <> [].
Proof.
  destruct n as [| |e cs]; simpl; try (intros H; by apply elem_of_nil in H).
  change (p ∈ childrenFrom 0 cs -> p <> []).
  generalize 0. induction cs as [|c cs IH]; intros i; simpl.
  - intros H. by apply elem_of_nil in H.
  - rewrite !elem_of_app. intros [H|[H|H]].
    + destruct c; try (by apply elem_of_nil in H).
      apply list_elem_of_singleton in H. by subst.
    + apply list_elem_of_fmap in H as (q & -> & _). done.
    + by apply (IH (S i)).
Qed.

Lemma allDescendants_below (doc : Dom.Node) (e d : Dom.Element) :
  d ∈ Dom.allDescendants doc e -> exists q, q <> [] /\ d = e ++ q.
Proof.
  unfold Dom.allDescendants. destruct (Dom.resolve doc e) as [n|].
  - intros H. apply list_elem_of_fmap in H as (q & -> & Hq).
    exists q. split; [by eapply descendants_nonempty|done].
  - intros H. by apply elem_of_nil in H.
Qed.

Lemma strictlyBelow_not_self (N d : Dom.Element) :
  strictlyBelow [N] d -> d <> N.
Proof.
  intros (e & q & He & Hq & ->). apply list_elem_of_singleton in He as ->.
  intros H. apply Hq.
  apply (f_equal length) in H. rewrite length_app in H.
  destruct q; [done|simpl in H; lia].
Qed.

Lemma elem_of_descendantsWhere (doc : Dom.Node) (prev : ElemSet)
    (isMatch : Dom.Element -> bool) (d : Dom.Element) :
  d ∈ descendantsWhere doc prev isMatch
  <-> exists e, e ∈ prev /\ d ∈ Dom.allDescendants doc e /\ isMatch d = true.
Proof.
  unfold descendantsWhere.
  assert (G : forall acc,
    d ∈ fold_left
          (fun results e =>
             fold_left
               (fun results d => if isMatch d then set_add d results else results)
               (Dom.allDescendants doc e) results) prev acc
    <-> (exists e, e ∈ prev /\ d ∈ Dom.allDescendants doc e /\ isMatch d = true)
        \/ d ∈ acc).
  { induction prev as [|e prev IH]; intros acc; simpl.
    - split; [auto|]. intros [(e & He & _)|?]; [by apply elem_of_nil in He|done].
    - rewrite IH, elem_of_add_where. split.
      + intros [(e' & ? & ? & ?)|[[? ?]|?]]; auto.
        * left. exists e'. rewrite elem_of_cons. auto.
        * left. exists e. rewrite elem_of_cons. auto.
      + intros [(e' & He' & ? & ?)|?]; auto.
        apply elem_of_cons in He' as [->|?]; auto.
        left. by exists e'. }
  rewrite G, elem_of_nil. tauto.
Qed.

Lemma matchDescendants_below (doc : Dom.Node) (prev : ElemSet)
    (isMatch : Predicate) (rx : RegExps) (d : Dom.Element) :
  d ∈ (matchDescendants doc prev isMatch rx).1 -> strictlyBelow prev d.
Proof.
  intros (e & He & Hd & _)%elem_of_matchDescendants.
  apply allDescendants_below in Hd as (q & Hq & ->). by exists e, q.
Qed.

Lemma matchQuerySelector_below
    (css : string -> option (Dom.Node -> Dom.Element -> bool))
    (doc : Dom.Node) (selector : string) (prev : ElemSet)
    (results : ElemSet) (d : Dom.Element) :
  matchQuerySelector css doc prev selector = Ok results ->
  d ∈ results -> strictlyBelow prev d.
Proof.
  unfold matchQuerySelector.
  assert (G : forall acc,
    matchQuerySelector_from css doc selector prev acc = Ok results ->
    d ∈ results -> strictlyBelow prev d \/ d ∈ acc).
  { induction prev as [|e prev IH]; intros acc; simpl.
    - intros [= ->]. auto.
    - unfold querySelectorAll. destruct (css selector) as [m|]; [|done].
      simpl. intros Hrun Hd.
      destruct (IH _ Hrun Hd) as [(e' & q & ? & ? & ->)|Hin].
      + left. exists e', q. rewrite elem_of_cons. auto.
      + apply elem_of_set_add_all in Hin as [Hin|?]; [|by right].
        apply list_elem_of_filter in Hin as [_ Hin].
        apply allDescendants_below in Hin as (q & ? & ->).
        left. exists e, q. rewrite elem_of_cons. auto. }
  intros Hrun Hd. destruct (G [] Hrun Hd) as [?|H]; [done|].
  by apply elem_of_nil in H.
Qed.

Lemma elem_of_filterText (doc : Dom.Node) (prev : ElemSet) (s : TextQuery)
    (rx : RegExps) (e : Dom.Element) :
  e ∈ (Match.filterText doc prev s rx).1 ->
  e ∈ prev /\ queryMatches doc s e = true.
Proof.
  unfold Match.filterText. intros [[Hin (rx0 & Hm)]|Hin]%elem_of_addWhere.
  - split; [done|]. by eapply isFound_true.
  - by apply elem_of_nil in Hin.
Qed.

Lemma filterText_stateless (doc : Dom.Node) (prev : ElemSet) (s : TextQuery)
    (rx : RegExps) :
  stateless s = true ->
  Match.filterText doc prev s rx
  = (fold_left
       (fun results e =>
          if queryMatches doc s e then set_add e results else results)
       prev [], rx).
Proof.
  intros Hs. unfold Match.filterText.
  rewrite (addWhere_ext _ _ _ _ _ (isFound_stateless doc s Hs)).
  apply addWhere_pure.
Qed.

(** ** Descendant steps and the self-inclusive [filterText] *)

Lemma returning_Ok (f : Dom.Node -> ElemSet -> RegExps -> ElemSet * RegExps)
    (doc : Dom.Node) (prev results : ElemSet) (rx rx' : RegExps) :
  returning f doc prev rx = (Ok results, rx') -> f doc prev rx = (results, rx').
Proof. unfold returning. destruct (f doc prev rx). by intros [= -> ->]. Qed.

Lemma descendantStep_below
    (css : string -> option (Dom.Node -> Dom.Element -> bool))
    (this : ScreenLocator) (h : Heap) (r : ScreenLocator * Heap)
    (doc : Dom.Node) (prev results : ElemSet) (rx rx' : RegExps)
    (d : Dom.Element) :
  descendantStep css this h r ->
  runAppended r doc prev rx = (Ok results, rx') ->
  d ∈ results -> strictlyBelow prev d.
Proof.
  unfold runAppended.
  intros [(selector & Hne & ->)|[(s & ->)|(role & ->)]].
  - unfold locate. destruct (String.eqb_spec selector ""); [done|].
    rewrite appended_chainLocator. unfold reading. simpl.
    intros [= Hrun _] Hd. by eapply matchQuerySelector_below.
  - destruct s as [s|re]; unfold locateText;
      rewrite appended_chainLocator; simpl;
      intros Hrun%returning_Ok Hd;
      eapply matchDescendants_below.
    + unfold matchText in Hrun. by rewrite Hrun.
    + unfold matchRegExp in Hrun. by rewrite Hrun.
  - unfold locateRole. rewrite appended_chainLocator. simpl.
    intros Hrun%returning_Ok Hd. eapply matchDescendants_below.
    unfold matchRole in Hrun. by rewrite Hrun.
Qed.

(** C1, as the code has it: every node a descendant step ([locate] of a
    selector that is not empty, [locateText], [locateRole]) returns lies
    strictly below some member of the current set, so a step run on the set
    of one node [N] never returns [N], whatever [N] itself matches.  The
    step of [filterText] returns members of the current set only, each with
    an own normalized text that matches; for a string, or a regular
    expression with neither the [g] nor the [y] flag, it returns exactly
    those members and moves no [lastIndex]. *)
Theorem descendant_steps_strictly_below
    (css : string -> option (Dom.Node -> Dom.Element -> bool))
    (this : ScreenLocator) (h : Heap) (doc : Dom.Node) (prev : ElemSet)
    (rx : RegExps) :
  (forall r results rx' d,
     descendantStep css this h r ->
     runAppended r doc prev rx = (Ok results, rx') ->
     d ∈ results -> strictlyBelow prev d)
  /\ (forall N r results rx',
        descendantStep css this h r ->
        runAppended r doc [N] rx = (Ok results, rx') -> N ∉ results)
  /\ (forall s,
        runAppended (ScreenLocator.filterText this s h) doc prev rx
        = (Ok (Match.filterText doc prev s rx).1,
           (Match.filterText doc prev s rx).2))
  /\ (forall s e,
        e ∈ (Match.filterText doc prev s rx).1 ->
        e ∈ prev /\ queryMatches doc s e = true)
  /\ (forall s,
        stateless s = true ->
        (Match.filterText doc prev s rx).2 = rx
        /\ forall e,
             e ∈ (Match.filterText doc prev s rx).1
             <-> e ∈ prev /\ queryMatches doc s e = true).
Proof.
  split; [|split; [|split; [|split]]].
  - intros r results rx' d. apply descendantStep_below.
  - intros N r results rx' Hr Hrun HN.
    eapply (strictlyBelow_not_self N N); [|done].
    by eapply descendantStep_below.
  - intros s. unfold runAppended, ScreenLocator.filterText.
    rewrite appended_chainLocator. unfold returning. simpl.
    by destruct (Match.filterText doc prev s rx).
  - intros s e. apply elem_of_filterText.
  - intros s Hs. rewrite filterText_stateless by done. split; [done|].
    intros e. simpl. rewrite elem_of_add_where, elem_of_nil. tauto.
Qed.

(** C1 as stated fails on the tree of the repository's [filterText] test:
    [locateText('delta')] on the set found by [locateText('alpha')] returns
    the innermost [div], which is a member of that set; and [filterText] of
    [/bravo/g] on the three inner [div]s leaves out the second, whose text
    matches as well. *)
Lemma locateText_returns_a_member :
  matchText Fixture.alphabet [[]] "alpha" ∅
  = ([[0]; [0; 1]; [0; 2]; [0; 3]], ∅)
  /\ runAppended
       (locateText Fixture.screen
          (QString "delta") [[]])
       Fixture.alphabet [[0]; [0; 1]; [0; 2]; [0; 3]] ∅
     = (Ok [[0; 3]], ∅)
  /\ [0; 3] ∈ [[0]; [0; 1]; [0; 2]; [0; 3]]
  /\ (runAppended
        (ScreenLocator.filterText Fixture.screen (QRegExp Fixture.bravo_g) [[]])
        Fixture.alphabet [[0; 1]; [0; 2]; [0; 3]] ∅).1
     = Ok [[0; 1]; [0; 3]]
  /\ Match.test Fixture.bravo_g (textOf Fixture.alphabet [0; 2]) ∅
     = (true, {[1 := 11]}).
Proof.
  split; [reflexivity|]. split; [reflexivity|]. split.
  { apply (bool_decide_unpack _). reflexivity. }
  split; [reflexivity|]. vm_compute. reflexivity.
Qed.

(** The outer [div] of the same tree matches the selector [div], and is
    not among what [locate('div')] finds from it. *)
Lemma descendant_steps_strictly_below_witness :
  runAppended (locate Fixture.tagCss Fixture.screen "div" [[]])
    Fixture.alphabet [[0]] ∅ = (Ok [[0; 1]; [0; 2]; [0; 3]], ∅)
  /\ [0] ∉ [[0; 1]; [0; 2]; [0; 3]].
Proof.
  split; [reflexivity|].
  apply (proj1 (proj2 (descendant_steps_strictly_below Fixture.tagCss
           Fixture.screen [[]] Fixture.alphabet [[0]] ∅)) [0]
           (locate Fixture.tagCss Fixture.screen "div" [[]])
           [[0; 1]; [0; 2]; [0; 3]] ∅).
  - left. exists "div". split; [discriminate|reflexivity].
  - reflexivity.
Defined.

(** With the [g] flag [test] resumes behind the match it found in the
    member before: of three members whose text holds [bravo], the second
    is left out, and twice the same filter leaves one. *)
Example filterText_global_skips_a_member :
  let prev := [[0; 1]; [0; 2]; [0; 3]] in
  let once :=
    Match.filterText Fixture.alphabet prev (QRegExp Fixture.bravo_g) ∅ in
  let twice :=
    Match.filterText Fixture.alphabet once.1 (QRegExp Fixture.bravo_g) once.2 in
  forallb (queryMatches Fixture.alphabet (QRegExp Fixture.bravo_g)) prev = true
  /\ once.1 = [[0; 1]; [0; 3]]
  /\ once.2 !! 1 = Some 11
  /\ twice.1 = [[0; 3]]
  /\ (Match.filterText Fixture.alphabet prev (QRegExp Fixture.bravo) ∅).1
     = prev.
Proof. repeat split; vm_compute; reflexivity. Qed.

(** ** Chaining leaves the locator as it was *)

Lemma alloc_frame (h : Heap) (a : list LocatorMatcher) (i : ArrayRef)
    (old : list LocatorMatcher) :
  h !! i = Some old -> (alloc h a).2 !! i = Some old.
Proof.
  unfold alloc. simpl. intros H.
  rewrite lookup_app_l; [done|]. by eapply lookup_lt_Some.
Qed.

Lemma chainLocator_spec (this : ScreenLocator) (d : string) (m : Matcher)
    (h : Heap) :
  let r := chainLocator this d m h in
  (forall i old, h !! i = Some old -> r.2 !! i = Some old)
  /\ act r.1 = act this /\ root r.1 = root this
  /\ matchers r.1 = length h
  /\ deref r.2 (matchers r.1)
     = deref h (matchers this) ++ [{| description := d; match_ := m |}].
Proof.
  simpl. split; [intros i old; apply alloc_frame|].
  repeat split. apply chainLocator_array.
Qed.

Lemma chain_cases
    (css : string -> option (Dom.Node -> Dom.Element -> bool))
    (op : ChainOp) (this : ScreenLocator) (h : Heap) :
  (op = OpLocate "" /\ chain css op this h = (this, h))
  \/ (op <> OpLocate ""
      /\ exists d m, chain css op this h = chainLocator this d m h).
Proof.
  destruct op as [selector|s|role|s|]; simpl.
  - unfold locate. destruct (String.eqb_spec selector "") as [->|Hne].
    + by left.
    + right. split; [congruence|eauto].
  - right. split; [done|]. destruct s; simpl; eauto.
  - right. split; [done|]. unfold locateRole. eauto.
  - right. split; [done|]. unfold ScreenLocator.filterText. eauto.
  - right. split; [done|]. unfold first. eauto.
Qed.

(** C3, as the code has it: a chaining call on a locator [this] whose array
    of matchers is allocated leaves every array of the heap as it was, so
    [this.describe()] and [this.allElements()] are what they were; the
    locator returned shares [root] and [act]; it is [this] itself for
    [locate('')], and otherwise a new locator over a new array: the matchers
    of [this] with one step appended. *)
Theorem chaining_never_mutates
    (css : string -> option (Dom.Node -> Dom.Element -> bool))
    (op : ChainOp) (this : ScreenLocator) (h : Heap) :
  matchers this < length h ->
  let r := chain css op this h in
  (forall i old, h !! i = Some old -> r.2 !! i = Some old)
  /\ describe r.2 this = describe h this
  /\ (forall w, allElements r.2 this w = allElements h this w)
  /\ act r.1 = act this
  /\ root r.1 = root this
  /\ match op with
     | OpLocate "" => r = (this, h)
     | _ =>
         matchers r.1 <> matchers this
         /\ exists m, deref r.2 (matchers r.1) = deref h (matchers this) ++ [m]
     end.
Proof.
  intros Hvalid r.
  destruct (lookup_lt_is_Some_2 h (matchers this) Hvalid) as [old Hold].
  destruct (chain_cases css op this h) as [[-> Heq]|[Hne (d & m & Heq)]];
    subst r; rewrite Heq.
  - simpl. repeat split; auto.
  - destruct (chainLocator_spec this d m h) as (Hframe & Hact & Hroot & Hnew & Harr).
    assert (Hsame : deref (chainLocator this d m h).2 (matchers this)
                    = deref h (matchers this)).
    { unfold deref. by rewrite (Hframe _ _ Hold), Hold. }
    split; [done|]. split; [unfold describe; by rewrite Hsame|].
    split; [intros w; unfold allElements; by rewrite Hsame|].
    split; [done|]. split; [done|].
    assert (matchers (chainLocator this d m h).1 <> matchers this
            /\ exists m0, deref (chainLocator this d m h).2
                            (matchers (chainLocator this d m h).1)
                          = deref h (matchers this) ++ [m0]) as Hgoal.
    { split; [rewrite Hnew; lia|eauto]. }
    destruct op as [[|c sel]| | | |]; try exact Hgoal. by destruct Hne.
Qed.

(** C3 as stated fails for [locate('')]: it appends no step. *)
Lemma locate_empty_appends_no_step :
  locate Fixture.tagCss Fixture.screen
    "" [[]]
  = (Fixture.screen, [[]])
  /\ describe
       (locate Fixture.tagCss
          Fixture.screen "" [[]]).2
       (locate Fixture.tagCss
          Fixture.screen "" [[]]).1
     = [].
Proof. split; reflexivity. Qed.

Lemma chaining_never_mutates_witness :
  allElements
    (chain Fixture.tagCss (OpLocate "div")
       Fixture.screen [[]]).2
    Fixture.screen (Fixture.world Fixture.alphabet)
  = (Ok [[]], Fixture.world Fixture.alphabet).
Proof.
  pose proof (chaining_never_mutates Fixture.tagCss (OpLocate "div")
                Fixture.screen [[]]) as H.
  simpl in H. specialize (H ltac:(lia)).
  destruct H as (_ & _ & H & _). rewrite H. reflexivity.
Defined.

(** ** Single-element methods *)

Lemma setLastIndex_same (w : World) : setLastIndex (lastIndex w) w = w.
Proof. by destruct w. Qed.

Lemma run_frame (m : Matcher) (prev : ElemSet) (w w1 : World)
    (r : Result ElemSet) :
  run m prev w = (r, w1) -> w1 = setLastIndex (lastIndex w1) w.
Proof.
  unfold run. destruct (m (document w) prev (lastIndex w)) as [r0 rx].
  by intros [= _ <-].
Qed.

Lemma allElements_frame (h : Heap) (this : ScreenLocator) (w w1 : World)
    (r : Result (list Dom.Element)) :
  allElements h this w = (r, w1) -> w1 = setLastIndex (lastIndex w1) w.
Proof. apply run_frame. Qed.

Lemma single_empty (h : Heap) (this : ScreenLocator) (what : string)
    (w w1 : World) :
  allElements h this w = (Ok [], w1) ->
  single h this what w
  = (Throw ("no elements found " +:+ what +:+ ": " +:+ formatDescription h this),
     w1).
Proof. unfold single, eff_bind. by intros ->. Qed.

Lemma single_many (h : Heap) (this : ScreenLocator) (what : string)
    (w w1 : World) (elems : list Dom.Element) :
  allElements h this w = (Ok elems, w1) ->
  1 < length elems ->
  single h this what w
  = (Throw ("multiple elements found " +:+ what +:+ ": "
            +:+ formatDescription h this), w1).
Proof.
  unfold single, eff_bind. intros -> Hlen.
  destruct (Nat.eqb_spec (length elems) 0); [lia|].
  by destruct (Nat.ltb_spec 1 (length elems)); [|lia].
Qed.

Lemma single_one (h : Heap) (this : ScreenLocator) (what : string)
    (w w1 : World) (elem : Dom.Element) :
  allElements h this w = (Ok [elem], w1) ->
  single h this what w = (Ok elem, w1).
Proof. unfold single, eff_bind. by intros ->. Qed.

Lemma bind_throw {A B} (m : Eff A) (k : A -> Eff B) (w w' : World)
    (e : string) :
  m w = (Throw e, w') -> eff_bind m k w = (Throw e, w').
Proof. unfold eff_bind. by intros ->. Qed.

Lemma bind_ok {A B} (m : Eff A) (k : A -> Eff B) (w w' : World) (a : A) :
  m w = (Ok a, w') -> eff_bind m k w = k a w'.
Proof. unfold eff_bind. by intros ->. Qed.

(** C4: when the materialized set is empty, [element], [click], [fill],
    [press] and [blur] each throw a message that starts with
    [no elements found] and ends with the locator's formatted description;
    when it has more than one element each throws a message that starts with
    [multiple elements found] and ends with the same description; the two
    messages differ; in both cases the world is left as the materialization
    left it, in which nothing but the [lastIndex] of regular expressions can
    have moved, so no element was picked; on exactly one match [element]
    returns it. *)
Theorem cardinality_contract
    (KeyPress : string -> option KeyEv)
    (valueSetter : Dom.Setter -> Dom.ElementData -> list Dom.Node
                   -> string -> Result string)
    (h : Heap) (this : ScreenLocator) (w w1 : World)
    (elems : list Dom.Element) (name value : string) :
  allElements h this w = (Ok elems, w1) ->
  let desc := formatDescription h this in
  w1 = setLastIndex (lastIndex w1) w
  /\ (elems = [] ->
      element h this w
      = (Throw ("no elements found but expected one: " +:+ desc), w1)
      /\ click h this w = (Throw ("no elements found to click: " +:+ desc), w1)
      /\ fill valueSetter h this value w
         = (Throw ("no elements found to fill: " +:+ desc), w1)
      /\ press KeyPress valueSetter h this name w
         = (Throw ("no elements found to press: " +:+ desc), w1)
      /\ blur h this w = (Throw ("no elements found to fill: " +:+ desc), w1))
  /\ (1 < length elems ->
        element h this w
        = (Throw ("multiple elements found but expected one: " +:+ desc), w1)
        /\ click h this w
           = (Throw ("multiple elements found to click: " +:+ desc), w1)
        /\ fill valueSetter h this value w
           = (Throw ("multiple elements found to fill: " +:+ desc), w1)
        /\ press KeyPress valueSetter h this name w
           = (Throw ("multiple elements found to press: " +:+ desc), w1)
        /\ blur h this w
           = (Throw ("multiple elements found to fill: " +:+ desc), w1))
  /\ (forall what,
        "no elements found " +:+ what +:+ ": " +:+ desc
        <> "multiple elements found " +:+ what +:+ ": " +:+ desc)
  /\ (forall elem, elems = [elem] -> element h this w = (Ok elem, w1)).
Proof.
  intros Hall desc. split; [by eapply allElements_frame|].
  split; [|split; [|split]].
  - intros ->.
    pose proof (fun what => single_empty h this what w w1 Hall) as Hs.
    unfold element, click, fill, press, blur.
    repeat split; try apply Hs; by apply bind_throw, Hs.
  - intros Hlen.
    pose proof (fun what => single_many h this what w w1 elems Hall Hlen) as Hs.
    unfold element, click, fill, press, blur.
    repeat split; try apply Hs; by apply bind_throw, Hs.
  - intros what. simpl. discriminate.
  - intros elem ->. by apply single_one.
Qed.

Lemma cardinality_contract_witness :
  allElements Fixture.divs.2 Fixture.divs.1 (Fixture.world Fixture.alphabet)
  = (Ok [[0]; [0; 1]; [0; 2]; [0; 3]], Fixture.world Fixture.alphabet)
  /\ element Fixture.divs.2 Fixture.divs.1 (Fixture.world Fixture.alphabet)
     = (Throw "multiple elements found but expected one: locate(div)",
        Fixture.world Fixture.alphabet).
Proof.
  split; [reflexivity|].
  refine (proj1 (proj1 (proj2 (proj2 (cardinality_contract Fixture.keys
            Fixture.verbatim
            Fixture.divs.2 Fixture.divs.1 (Fixture.world Fixture.alphabet)
            (Fixture.world Fixture.alphabet)
            [[0]; [0; 1]; [0; 2]; [0; 3]] "F" "x" _))) _)).
  - reflexivity.
  - simpl. lia.
Defined.

(** ** Whitespace *)

Lemma trimStart_runs_true (s : string) :
  Js.trimStart (Js.replace_runs true s) = Js.replace_runs true s.
Proof.
  induction s as [|c s IH]; [done|]. simpl.
  destruct (Js.is_space c) eqn:Hc; [done|]. simpl. by rewrite Hc.
Qed.

Lemma trimStart_runs_false (s : string) :
  Js.trimStart (Js.replace_runs false s) = Js.replace_runs true s.
Proof.
  destruct s as [|c s]; [done|]. simpl.
  destruct (Js.is_space c) eqn:Hc; simpl.
  - apply trimStart_runs_true.
  - by rewrite Hc.
Qed.

Lemma concat_cons_char (sep : string) (c : ascii) (w : string)
    (ws : list string) :
  String.concat sep (String c w :: ws) = String c (String.concat sep (w :: ws)).
Proof. by destruct ws. Qed.

Lemma tokens_head_nonempty (s w : string) (ws : list string) :
  tokens s = w :: ws -> w <> "".
Proof.
  revert w ws. induction s as [|c s IH]; intros w ws; [done|]. simpl.
  destruct (Js.is_space c); [apply IH|].
  destruct (starts_word s).
  - destruct (tokens s); by intros [= <- _].
  - by intros [= <- _].
Qed.

Lemma join_tokens_empty (s : string) :
  Js.join " " (tokens s) = "" -> tokens s = [].
Proof.
  destruct (tokens s) as [|w ws] eqn:Ht; [done|].
  apply tokens_head_nonempty in Ht. unfold Js.join.
  destruct w as [|c w]; [done|]. by rewrite concat_cons_char.
Qed.

Lemma leading_in_run (s : string) : leading true s = "".
Proof.
  unfold leading. destruct s as [|c s]; [done|].
  destruct (tokens (String c s)); [done|]. by rewrite andb_false_r.
Qed.

Lemma leading_word (in_run : bool) (c : ascii) (s : string) :
  Js.is_space c = false -> leading in_run (String c s) = "".
Proof.
  unfold leading. intros Hc. destruct (tokens _); [done|]. by rewrite Hc.
Qed.

Lemma leading_space (c : ascii) (s : string) :
  Js.is_space c = true ->
  leading false (String c s)
  = match tokens s with [] => "" | _ :: _ => " " end.
Proof. unfold leading. simpl. by intros ->. Qed.

Lemma tokens_space (c : ascii) (s : string) :
  Js.is_space c = true -> tokens (String c s) = tokens s.
Proof. simpl. by intros ->. Qed.

Lemma tokens_word (c : ascii) (s : string) :
  Js.is_space c = false ->
  tokens (String c s)
  = if starts_word s
    then match tokens s with
         | w :: ws => String c w :: ws
         | [] => [String c ""]
         end
    else String c "" :: tokens s.
Proof. simpl. by intros ->. Qed.

Lemma trimEnd_word (c : ascii) (s : string) :
  Js.is_space c = false -> Js.trimEnd (String c s) = String c (Js.trimEnd s).
Proof. simpl. by intros ->. Qed.

Lemma trimEnd_runs (in_run : bool) (s : string) :
  Js.trimEnd (Js.replace_runs in_run s)
  = leading in_run s +:+ Js.join " " (tokens s).
Proof.
  revert in_run. induction s as [|c s IH]; intros in_run; [done|].
  destruct (Js.is_space c) eqn:Hc.
  - rewrite (tokens_space c s Hc). destruct in_run.
    + rewrite leading_in_run. cbn [Js.replace_runs]. rewrite Hc.
      by rewrite IH, leading_in_run.
    + rewrite (leading_space c s Hc). cbn [Js.replace_runs]. rewrite Hc.
      cbn [Js.trimEnd]. rewrite IH, leading_in_run.
      destruct (tokens s) as [|w ws] eqn:Ht; [done|].
      destruct (String.eqb_spec ("" +:+ Js.join " " (w :: ws)) "") as [He|He];
        [|done].
      rewrite <- Ht in He. apply join_tokens_empty in He. congruence.
  - rewrite (leading_word in_run c s Hc), (tokens_word c s Hc).
    cbn [Js.replace_runs]. rewrite Hc, trimEnd_word by done. rewrite IH.
    destruct s as [|c' s']; [done|].
    cbn [starts_word]. destruct (Js.is_space c') eqn:Hc'.
    + rewrite (leading_space c' s' Hc'), (tokens_space c' s' Hc').
      cbn [negb]. destruct (tokens s') as [|w ws]; [done|].
      unfold Js.join. by destruct ws.
    + rewrite (leading_word false c' s' Hc'). cbn [negb].
      destruct (tokens (String c' s')) as [|w ws]; [done|].
      unfold Js.join. cbn [String.append]. by rewrite concat_cons_char.
Qed.

Lemma normalizeWhitespace_tokens (s : string) :
  normalizeWhitespace s = Js.join " " (tokens s).
Proof.
  unfold normalizeWhitespace, Js.trim, Js.replace_whitespace.
  by rewrite trimStart_runs_false, trimEnd_runs, leading_in_run.
Qed.

Lemma append_cons (x : ascii) (a b : string) :
  String x a +:+ b = String x (a +:+ b).
Proof. reflexivity. Qed.

Lemma append_assoc (a b c : string) : (a +:+ b) +:+ c = a +:+ (b +:+ c).
Proof. induction a as [|x a IH]; [done|]. rewrite !append_cons. by f_equal. Qed.

Lemma append_empty_r (a : string) : a +:+ "" = a.
Proof. induction a as [|x a IH]; [done|]. rewrite append_cons. by f_equal. Qed.

Lemma ownText_directText (s : string) (childNodes : list Dom.Node) :
  ownText s childNodes = s +:+ directText childNodes.
Proof.
  revert s. induction childNodes as [|[data|data|e cs] rest IH]; intros s;
    simpl; [by rewrite append_empty_r| |done|done].
  by rewrite IH, append_assoc.
Qed.

Lemma directText_skips_element (pre post : list Dom.Node)
    (e : Dom.ElementData) (cs : list Dom.Node) :
  directText (pre ++ Dom.Elem e cs :: post) = directText (pre ++ post).
Proof.
  induction pre as [|[data|data|e' cs'] pre IH]; simpl; [done| |done|done].
  by rewrite IH.
Qed.

(** C5: for an element whose tag name is [INPUT] or [TEXTAREA] the own text
    is its current value; for every other element it is the words of its
    direct text-node children (the maximal runs of non-whitespace of their
    concatenation) joined by single spaces, with nothing in front or behind,
    and a child element adds nothing; direct text ["  a\n b  "] gives
    ["a b"]. *)
Theorem own_text_extraction (e : Dom.ElementData) (childNodes : list Dom.Node) :
  getNormalizedText e childNodes
  = (if String.eqb (Dom.tagName e) "INPUT"
        || String.eqb (Dom.tagName e) "TEXTAREA"
     then Dom.value e
     else Js.join " " (tokens (directText childNodes)))
  /\ (forall pre post e' cs',
        getNormalizedText e (pre ++ Dom.Elem e' cs' :: post)
        = getNormalizedText e (pre ++ post))
  /\ textOf (Fixture.html "DIV" [] [Dom.Text "  a
 b  "]) [] = "a b".
Proof.
  split; [|split; [|reflexivity]].
  - unfold getNormalizedText.
    destruct (_ || _); [done|].
    by rewrite ownText_directText, normalizeWhitespace_tokens.
  - intros pre post e' cs'. unfold getNormalizedText.
    destruct (_ || _); [done|].
    by rewrite !ownText_directText, directText_skips_element.
Qed.

Example own_text_of_input :
  textOf Fixture.form [0; 1] = ""
  /\ textOf (Fixture.input [] "  kept  as is ") [] = "  kept  as is ".
Proof. split; reflexivity. Qed.

Example own_text_skips_nested :
  textOf (Fixture.html "DIV" []
            [Dom.Text " top "; Fixture.html "B" [] [Dom.Text "nested"];
             Dom.Comment "note"; Dom.Text "	end"]) []
  = "top end".
Proof. reflexivity. Qed.

(** ** Roles *)

Lemma array_includes_iff (l : list string) (x : string) :
  Js.array_includes l x = true <-> x ∈ l.
Proof.
  unfold Js.array_includes. rewrite existsb_exists, list_elem_of_In. split.
  - intros (y & Hy & Heq). apply String.eqb_eq in Heq. by subst.
  - intros Hx. exists x. split; [done|]. apply String.eqb_refl.
Qed.

Lemma hasRole_pieces (attrs : list (string * string)) (role : string) :
  hasRole attrs role = true
  <-> exists piece,
        piece ∈ Js.split_space (default "" (Dom.getAttribute attrs "role"))
        /\ Js.trim piece = role.
Proof.
  unfold hasRole. rewrite array_includes_iff, list_elem_of_fmap.
  split; intros (p & ? & ?); exists p; auto.
Qed.

Lemma split_space_cons (s : string) :
  exists w ws, Js.split_space s = w :: ws.
Proof.
  destruct s as [|c s]; simpl; [eauto|].
  destruct (Ascii.eqb c " "); [eauto|].
  destruct (Js.split_space s); eauto.
Qed.

Lemma split_space_pieces (s : string) :
  spaceSeparated s = true ->
  Forall (fun p => noWhitespace p = true) (Js.split_space s).
Proof.
  induction s as [|c s IH]; simpl; [by repeat constructor|].
  intros [Hc Hs]%andb_prop. specialize (IH Hs).
  destruct (Ascii.eqb c " ") eqn:Hsp.
  - by constructor.
  - rewrite orb_false_r in Hc.
    destruct (Js.split_space s) as [|w ws].
    + repeat constructor. unfold noWhitespace. simpl. by rewrite Hc.
    + inversion IH; subst. constructor; [|done].
      unfold noWhitespace in *. simpl. by rewrite Hc.
Qed.

Lemma trimEnd_noWhitespace (p : string) :
  noWhitespace p = true -> Js.trimEnd p = p.
Proof.
  unfold noWhitespace. induction p as [|c p IH]; simpl; [done|].
  intros [Hc Hp]%andb_prop. apply negb_true_iff in Hc. rewrite Hc.
  simpl. by rewrite IH.
Qed.

Lemma trim_noWhitespace (p : string) :
  noWhitespace p = true -> Js.trim p = p.
Proof.
  intros Hp. unfold Js.trim.
  assert (Js.trimStart p = p) as ->.
  { destruct p as [|c p]; [done|]. unfold noWhitespace in Hp. simpl in *.
    apply andb_prop in Hp as [Hc _]. apply negb_true_iff in Hc.
    by rewrite Hc. }
  by apply trimEnd_noWhitespace.
Qed.

Lemma spaceSeparated_cons (c : ascii) (s : string) :
  spaceSeparated (String c s) = true ->
  (c = " "%char \/ Js.is_space c = false) /\ spaceSeparated s = true.
Proof.
  unfold spaceSeparated. simpl. intros [Hc Hs]%andb_prop. split; [|done].
  apply orb_prop in Hc as [Hc|Hc].
  - right. by apply negb_true_iff.
  - left. by apply Ascii.eqb_eq.
Qed.

Lemma tokens_split_space (s : string) :
  spaceSeparated s = true ->
  tokens s = List.filter nonEmpty (Js.split_space s).
Proof.
  induction s as [|c s IH]; [done|].
  intros [Hc Hs]%spaceSeparated_cons. specialize (IH Hs).
  destruct (Ascii.eqb_spec c " ") as [->|Hne].
  - rewrite tokens_space by done. simpl. done.
  - destruct Hc as [?|Hw]; [done|].
    rewrite tokens_word by done. cbn [Js.split_space].
    destruct (Ascii.eqb_spec c " "); [done|].
    destruct s as [|c' s']; [done|].
    cbn [starts_word]. rewrite IH. cbn [Js.split_space].
    apply spaceSeparated_cons in Hs as [Hc' _].
    destruct (Ascii.eqb_spec c' " ") as [->|Hne'].
    + done.
    + destruct Hc' as [?|Hw']; [done|].
      rewrite Hw'. cbn [negb].
      by destruct (Js.split_space s').
Qed.

Lemma elem_of_tokens_split (s role : string) :
  spaceSeparated s = true -> role <> "" ->
  role ∈ tokens s
  <-> exists piece, piece ∈ Js.split_space s /\ Js.trim piece = role.
Proof.
  intros Hs Hrole. rewrite tokens_split_space by done.
  rewrite list_elem_of_In, filter_In, <- list_elem_of_In.
  pose proof (split_space_pieces s Hs) as Hall.
  rewrite Forall_forall in Hall. split.
  - intros [Hin _]. exists role. split; [done|].
    by apply trim_noWhitespace, Hall.
  - intros (p & Hin & Htrim).
    rewrite trim_noWhitespace in Htrim by (by apply Hall).
    subst p. split; [done|]. unfold nonEmpty.
    by destruct (String.eqb_spec role "").
Qed.

(** C6, as the code has it: [locateRole(role)] keeps the descendants whose
    [role] attribute (the empty string when absent) has [role] among its
    pieces, the attribute being cut at every space character and each piece
    trimmed of surrounding whitespace.  For a role that is not empty and an
    attribute whose only whitespace is the space character, these are exactly
    the whitespace-separated tokens of the attribute; an absent attribute
    holds no such role.  Nothing but the attribute is looked at, and no
    regular expression is tested. *)
Theorem role_is_a_piece (this : ScreenLocator) (h : Heap) (doc : Dom.Node)
    (prev : ElemSet) (rx : RegExps) (attrs : list (string * string))
    (role : string) :
  role <> "" ->
  let attr := default "" (Dom.getAttribute attrs "role") in
  runAppended (locateRole this role h) doc prev rx
  = (Ok (descendantsWhere doc prev (roleOf doc role)), rx)
  /\ (hasRole attrs role = true
      <-> exists piece, piece ∈ Js.split_space attr /\ Js.trim piece = role)
  /\ (spaceSeparated attr = true ->
      (hasRole attrs role = true <-> role ∈ tokens attr))
  /\ (Dom.getAttribute attrs "role" = None -> hasRole attrs role = false).
Proof.
  intros Hrole attr. split; [|split; [|split]].
  - unfold runAppended, locateRole. rewrite appended_chainLocator.
    unfold returning, matchRole. simpl.
    by rewrite (matchDescendants_pure doc prev (roleOf doc role)).
  - apply hasRole_pieces.
  - intros Hs. rewrite hasRole_pieces. symmetry.
    by apply elem_of_tokens_split.
  - intros Hnone. unfold hasRole. rewrite Hnone.
    change (String.eqb role "" || false = false).
    rewrite orb_false_r. by apply String.eqb_neq.
Qed.

(** C6 as stated fails when a tab separates the tokens: [button] is a
    whitespace-separated token of the attribute, and the element is not
    kept. *)
Lemma role_after_tab_not_found :
  "button" ∈ tokens ("link" +:+ String "009" "button")
  /\ hasRole [("role", "link" +:+ String "009" "button")] "button" = false.
Proof.
  split; [|reflexivity].
  apply (bool_decide_unpack _). reflexivity.
Qed.

Lemma role_is_a_piece_witness :
  hasRole [("type", "button"); ("role", "switch  button")] "button" = true
  /\ matchRole Fixture.form [[]] "textbox" ∅ = ([[0; 1]], ∅).
Proof.
  split; [|reflexivity].
  apply (proj1 (proj2 (role_is_a_piece Fixture.screen Fixture.heap0
           Fixture.form [[]] ∅ [("type", "button"); ("role", "switch  button")]
           "button" ltac:(discriminate)))).
  exists "button". split; [|reflexivity].
  apply (bool_decide_unpack _). reflexivity.
Defined.

(** The empty role is a piece of the empty attribute: [locateRole('')]
    keeps the elements that have no role at all. *)
Example empty_role_matches_no_role :
  hasRole [] "" = true
  /\ matchRole Fixture.alphabet [[0]] "" ∅ = ([[0; 1]; [0; 2]; [0; 3]], ∅).
Proof. split; reflexivity. Qed.

(** ** Keys and values *)

Lemma resolve_update (f : Dom.ElementData -> Dom.ElementData)
    (p : Dom.Element) (doc : Dom.Node) (d : Dom.ElementData)
    (cs : list Dom.Node) :
  Dom.resolve doc p = Some (Dom.Elem d cs) ->
  Dom.resolve (Dom.update f p doc) p = Some (Dom.Elem (f d) cs).
Proof.
  revert doc. induction p as [|i p IH]; intros doc; simpl.
  - by intros [= ->].
  - destruct doc as [| |e cs0]; try done. simpl.
    destruct (cs0 !! i) as [c|] eqn:Hi; [|done]. simpl. intros Hc.
    rewrite list_lookup_insert_eq by (by eapply lookup_lt_Some).
    simpl. by apply IH.
Qed.

Lemma elementAt_update (f : Dom.ElementData -> Dom.ElementData)
    (p : Dom.Element) (doc : Dom.Node) (d : Dom.ElementData)
    (cs : list Dom.Node) :
  Dom.elementAt doc p = Some (d, cs) ->
  Dom.elementAt (Dom.update f p doc) p = Some (f d, cs).
Proof.
  unfold Dom.elementAt.
  destruct (Dom.resolve doc p) as [[| |d0 cs0]|] eqn:Hr; try done.
  intros [= -> ->]. by rewrite (resolve_update f p doc d cs Hr).
Qed.

Lemma allElements_document (h : Heap) (this : ScreenLocator) (w w1 : World)
    (r : Result (list Dom.Element)) :
  allElements h this w = (r, w1) -> document w1 = document w.
Proof. intros H. by rewrite (allElements_frame _ _ _ _ _ H). Qed.

Lemma setElementValue_native
    (valueSetter : Dom.Setter -> Dom.ElementData -> list Dom.Node
                   -> string -> Result string)
    (elem : Dom.Element) (f : string -> string)
    (w : World) (d : Dom.ElementData) (cs : list Dom.Node)
    (setter : Dom.Setter) :
  Dom.elementAt (document w) elem = Some (d, cs) ->
  nativeValue d ->
  Dom.protoValueSetter d = Some setter ->
  setElementValue valueSetter elem f w
  = match valueSetter setter d cs (f (Dom.value d)) with
    | Ok stored => writeValue elem stored w
    | Throw m => (Throw m, w)
    end.
Proof.
  intros Hd [_ Hne] Hp. unfold setElementValue, callSetter.
  rewrite Hd. cbv beta iota zeta. rewrite Hp in *. cbv beta iota.
  by rewrite bool_decide_eq_false_2.
Qed.

Lemma valueOf_writeValue (elem : Dom.Element) (v : string) (w : World)
    (d : Dom.ElementData) (cs : list Dom.Node) :
  Dom.elementAt (document w) elem = Some (d, cs) ->
  valueOf (writeValue elem v w).2 elem = Some v.
Proof.
  intros Hd. unfold valueOf, writeValue. simpl.
  by rewrite (elementAt_update _ _ _ _ _ Hd).
Qed.


(** What [press] and [fill] run inside [act], once the element is found. *)
Lemma press_runs (KeyPress : string -> option KeyEv)
    (valueSetter : Dom.Setter -> Dom.ElementData -> list Dom.Node
                   -> string -> Result string)
    (h : Heap) (this : ScreenLocator) (w w1 : World) (elem : Dom.Element)
    (d : Dom.ElementData) (cs : list Dom.Node) (name : string)
    (keyEv : KeyEv) :
  allElements h this w = (Ok [elem], w1) ->
  Dom.elementAt (document w) elem = Some (d, cs) ->
  hasValue (Dom.iface d) = true ->
  (forall A (cb : Eff A), act this A cb = cb) ->
  KeyPress name = Some keyEv ->
  press KeyPress valueSetter h this name w
  = (record (CallFocus elem) >>
     dispatchEvent elem (FocusEvent "focus" bubbling) >>
     dispatchEvent elem (KeyboardEvent "keydown" keyEv) >>
     dispatchEvent elem (KeyboardEvent "keyup" keyEv) >>
     (if isPrintable (keyCode keyEv)
      then setElementValue valueSetter elem (fun old => old +:+ key keyEv)
      else eff_ret tt) >>
     dispatchEvent elem (KeyboardEvent "keypress" keyEv) >>
     dispatchEvent elem (PlainEvent "input" bubbling) >>
     dispatchEvent elem (PlainEvent "change" bubbling)) w1.
Proof.
  intros Hall Hd Hval Hact Hkey.
  pose proof (single_one h this "to press" w w1 elem Hall) as Hone.
  assert (Hdata : dataOf elem w1 = (Ok d, w1)).
  { unfold dataOf. by rewrite (allElements_document _ _ _ _ _ Hall), Hd. }
  unfold press.
  rewrite (bind_ok _ _ _ _ _ Hone), (bind_ok _ _ _ _ _ Hdata).
  by rewrite Hval, Hkey, Hact.
Qed.

Lemma fill_runs
    (valueSetter : Dom.Setter -> Dom.ElementData -> list Dom.Node
                   -> string -> Result string)
    (h : Heap) (this : ScreenLocator) (w w1 : World) (elem : Dom.Element)
    (d : Dom.ElementData) (cs : list Dom.Node) (value : string) :
  allElements h this w = (Ok [elem], w1) ->
  Dom.elementAt (document w) elem = Some (d, cs) ->
  hasValue (Dom.iface d) = true ->
  (forall A (cb : Eff A), act this A cb = cb) ->
  fill valueSetter h this value w
  = (record (CallFocus elem) >>
     dispatchEvent elem (FocusEvent "focus" bubbling) >>
     setElementValue valueSetter elem (fun _ => value) >>
     dispatchEvent elem (PlainEvent "input" bubbling) >>
     dispatchEvent elem (PlainEvent "change" bubbling) >>
     record (CallBlur elem) >>
     dispatchEvent elem (FocusEvent "blur" bubbling_composed)) w1.
Proof.
  intros Hall Hd Hval Hact.
  pose proof (single_one h this "to fill" w w1 elem Hall) as Hone.
  assert (Hdata : dataOf elem w1 = (Ok d, w1)).
  { unfold dataOf. by rewrite (allElements_document _ _ _ _ _ Hall), Hd. }
  unfold fill.
  rewrite (bind_ok _ _ _ _ _ Hone), (bind_ok _ _ _ _ _ Hdata).
  by rewrite Hval, Hact.
Qed.






(** The key codes the DOM gives to Tab and Enter are outside the range of
    [isPrintable]; those of the four arrow keys, 37 to 40, are inside it. *)
Example isPrintable_key_codes :
  isPrintable 9 = false /\ isPrintable 13 = false /\ isPrintable 32 = false
  /\ isPrintable 70 = true /\ forallb isPrintable [37; 38; 39; 40] = true.
Proof. by repeat split. Qed.

(** The value after [fill] is what the setter stores: a host that drops
    line feeds leaves [ab] of a value with a line feed in it. *)
Example fill_stores_what_the_setter_keeps :
  valueOf
    (fill Fixture.singleLine Fixture.inputs.2 Fixture.inputs.1 "a
b" (Fixture.world Fixture.form)).2 [0; 1]
  = Some "ab".
Proof. vm_compute. reflexivity. Qed.

(** When the value accessor is the element's own, [setElementValue] stores
    the value and then reaches its [throw]. *)
Example fill_own_setter_throws :
  let own :=
    Dom.Elem
      {| Dom.tagName := "INPUT"; Dom.iface := Dom.HTMLInputElement;
         Dom.attributes := []; Dom.value := "";
         Dom.ownValueSetter := Some 1; Dom.protoValueSetter := None |} [] in
  let r := setElementValue Fixture.verbatim [] (fun _ => "x")
             (Fixture.world own) in
  r.1 = Throw "element does not have a value setter"
  /\ valueOf r.2 [] = Some "x".
Proof. split; reflexivity. Qed.

(** ** Cleanup *)


Lemma runCleanups_throw (i : nat) (thunks : list (Eff unit)) (w w' : World)
    (m : string) (called : list nat) :
  DomScreen.runCleanups i thunks w = (Throw m, called, w') ->
  exists k thunk wk,
    thunks !! k = Some thunk
    /\ called = seq i (S k)
    /\ foldr (fun thunk rest => thunk >> rest) (eff_ret tt) (take k thunks) w
       = (Ok tt, wk)
    /\ thunk wk = (Throw m, w').
Proof.
  revert i w called. induction thunks as [|thunk rest IH]; intros i w called;
    [done|].
  simpl. destruct (thunk w) as [[[]|m0] w1] eqn:Hthunk.
  - destruct (DomScreen.runCleanups (S i) rest w1) as [[r called'] w2] eqn:Hr.
    intros [= -> <- ->].
    destruct (IH _ _ _ Hr) as (k & t & wk & Hk & -> & Hfold & Ht).
    exists (S k), t, wk. simpl. unfold eff_bind at 1. by rewrite Hthunk.
  - intros [= <- <- <-]. by exists 0, thunk, w.
Qed.


(** What a [render] that returns has done, in order. *)
Lemma render_Ok {ROOT NODE : Type} (host : DomScreen.HostDocument)
    (this s : DomScreen.DomScreen ROOT NODE) (node : NODE) (h h' : Heap)
    (w w' : World) (l : ScreenLocator) :
  DomScreen.render host this node h w = (Ok l, s, h', w') ->
  exists rt wa wb,
    DomScreen.appendContainer host w = (Ok (root l), wa)
    /\ DomScreen.createRoot (DomScreen.lifecycle this) (root l) wa
       = (Ok rt, wb)
    /\ DomScreen.act (DomScreen.lifecycle this) unit
         (DomScreen.render_ (DomScreen.lifecycle this) rt node) wb
       = (Ok tt, w')
    /\ DomScreen.lifecycle s = DomScreen.lifecycle this
    /\ DomScreen.cleanups s
       = DomScreen.cleanups this
         ++ [DomScreen.teardown host (DomScreen.lifecycle this) rt (root l)]
    /\ (l, h') = of_ (DomScreen.act (DomScreen.lifecycle this)) (root l) h.
Proof.
  unfold DomScreen.render, eff_bind, eff_ret.
  destruct (DomScreen.appendContainer host w) as [[container|m] wa] eqn:Ha;
    [|done].
  destruct (DomScreen.createRoot _ container wa) as [[rt|m] wb] eqn:Hc;
    [|done].
  destruct (DomScreen.act _ unit _ wb) as [[[]|m] wc] eqn:Hr; [|done].
  unfold of_, alloc. intros [= <- <- <- <-]. simpl.
  exists rt, wa, wb. by rewrite Hc, Hr.
Qed.




(** A thunk that throws ends the loop before the list is emptied. *)
Example cleanup_after_throw :
  let failing : DomScreen.DomScreen Dom.Element string :=
    {| DomScreen.lifecycle := Fixture.counting;
       DomScreen.cleanups :=
         [eff_throw "container parentNode is null during cleanup."] |} in
  (DomScreen.cleanup failing (Fixture.world Fixture.alphabet)).1.2 = failing
  /\ (DomScreen.cleanup failing (Fixture.world Fixture.alphabet)).1.1.2 = [0].
Proof. split; reflexivity. Qed.

(** ** Receivers *)

Lemma of_spec (a : DomScreenAct) (e : Dom.Element) (h : Heap) :
  deref (of_ a e h).2 (matchers (of_ a e h).1) = []
  /\ root (of_ a e h).1 = e
  /\ ScreenLocator.act (of_ a e h).1 = a
  /\ (forall i old, h !! i = Some old -> (of_ a e h).2 !! i = Some old).
Proof.
  unfold of_. simpl. split; [apply (deref_alloc h [])|].
  repeat split. intros i old. apply alloc_frame.
Qed.

Section Receivers.

Context (globalAct_var : option DomScreenAct).
Context (css : string -> option (Dom.Node -> Dom.Element -> bool)).
Context (stringify : Dom.Node -> Testing.Shown -> string).
Context (pathname : string -> Result string).
Context (settle : nat -> World -> World).


End Receivers.

Example element_receiver :
  exists l h,
    verifyReceiver (Some plainAct) Fixture.tagCss (RElement [0; 1]) [[]]
    = Ok (l, h)
    /\ allElements h l (Fixture.world Fixture.alphabet)
       = (Ok [[0; 1]], Fixture.world Fixture.alphabet).
Proof. eexists _, _. split; reflexivity. Qed.

(** ** The retry wrapper *)

Section Retrying.

Context (css : string -> option (Dom.Node -> Dom.Element -> bool)).
Context (stringify : Dom.Node -> Testing.Shown -> string).
Context (pathname : string -> Result string).
Context (settle : nat -> World -> World).
Context {T : Type} (fn : SyncMatcher T).
Context (this : MatcherContext) (receiver : Receiver) (arg : T).



End Retrying.


(** The path is [/] at first and [/next] after the first sleep: two
    evaluations, one sleep of 5, and the passing result is returned. *)
Example retry_stops_at_success :
  let run :=
    waitForSuccess (Some plainAct) Fixture.navigating
      (toHaveURLPath (Some plainAct) Fixture.tagCss Fixture.shown
         Fixture.pathOf)
      Fixture.positive (RElement []) "/next" [[]]
      (Fixture.world Fixture.alphabet) in
  map (fun s => match s with
                | Evaluate (Ok r) => Some (pass r)
                | Evaluate (Throw _) => None
                | Sleep millis => Some (millis =? 5)
                end) (steps run)
  = [Some false; Some true; Some true]
  /\ (pass <$> outcome_of run) = Some true.
Proof. split; reflexivity. Qed.

(** * Further properties of the locator *)

(** ** Descriptions and materialization of a chain *)

Lemma concat_snoc (sep x : string) (l : list string) :
  String.concat sep (l ++ [x])
  = match l with
    | [] => x
    | _ :: _ => String.concat sep l +:+ sep +:+ x
    end.
Proof.
  induction l as [|y l IH]; [done|]. destruct l as [|z l]; [done|].
  change (y +:+ sep +:+ String.concat sep ((z :: l) ++ [x])
          = (y +:+ sep +:+ String.concat sep (z :: l)) +:+ sep +:+ x).
  by rewrite IH, !append_assoc.
Qed.

Lemma applyMatchers_app (doc : Dom.Node) (ms ms' : list LocatorMatcher)
    (found : ElemSet) (rx : RegExps) :
  applyMatchers doc (ms ++ ms') found rx
  = match applyMatchers doc ms found rx with
    | (Ok found', rx') => applyMatchers doc ms' found' rx'
    | (Throw e, rx') => (Throw e, rx')
    end.
Proof.
  revert found rx. induction ms as [|m ms IH]; intros found rx; [done|]. simpl.
  destruct (match_ m doc found rx) as [[found'|e] rx']; [apply IH|done].
Qed.

Lemma allElements_chainLocator (this : ScreenLocator) (d : string)
    (m : Matcher) (h : Heap) (w : World) :
  allElements (chainLocator this d m h).2 (chainLocator this d m h).1 w
  = eff_bind (allElements h this) (run m) w.
Proof.
  unfold allElements, run, eff_bind.
  rewrite chainLocator_array, applyMatchers_app.
  change (root (chainLocator this d m h).1) with (root this).
  destruct (applyMatchers (document w) (deref h (matchers this)) [root this]
              (lastIndex w)) as [[found|e] rx]; [|done].
  simpl. destruct (m (document w) found rx) as [[found'|e] rx']; reflexivity.
Qed.

Lemma run_reading (f : Dom.Node -> ElemSet -> Result ElemSet)
    (prev : ElemSet) (w : World) :
  run (reading f) prev w = (f (document w) prev, w).
Proof. unfold run, reading. by rewrite setLastIndex_same. Qed.

Lemma bind_ret_r {A} (m : Eff A) (w : World) : eff_bind m eff_ret w = m w.
Proof. unfold eff_bind, eff_ret. by destruct (m w) as [[a|e] w']. Qed.

(** X1: every chaining call leaves the descriptions of the locator it is
    called on in front and adds its own behind them: [locate(sel)],
    [locateText(s)], [locateText(regexp: re)], [locateRole(role)],
    [filterText(s)] or [first()], and nothing for [locate('')];
    [formatDescription] joins them with an arrow. *)
Theorem describe_chain
    (css : string -> option (Dom.Node -> Dom.Element -> bool))
    (op : ChainOp) (this : ScreenLocator) (h : Heap) :
  describe (chain css op this h).2 (chain css op this h).1
  = describe h this ++ descriptionOf op
  /\ formatDescription (chain css op this h).2 (chain css op this h).1
     = match describe h this, descriptionOf op with
       | _, [] => formatDescription h this
       | [], d :: _ => d
       | _ :: _, d :: _ => formatDescription h this +:+ " -> " +:+ d
       end.
Proof.
  assert (Hd : describe (chain css op this h).2 (chain css op this h).1
               = describe h this ++ descriptionOf op).
  { destruct op as [[|c sel]|[s|re]|role|s|];
      unfold chain, describe, locate, locateText, locateRole,
        ScreenLocator.filterText, first, descriptionOf;
      try change (String.eqb (String c sel) "") with false; cbv iota;
      try (by rewrite app_nil_r);
      by rewrite chainLocator_array, map_app. }
  split; [done|]. unfold formatDescription, Js.join. rewrite Hd.
  destruct (descriptionOf op) as [|d [|d' rest]] eqn:Hop.
  - rewrite app_nil_r. by destruct (describe h this).
  - rewrite concat_snoc. by destruct (describe h this).
  - destruct op as [[|c sel]|[s|re]|role|s|]; discriminate.
Qed.

(** X2: materialization is lazy and composes: the elements of the locator a
    chaining call returns are the elements of the locator it was called on,
    put through the step of the call, in the world the earlier steps left;
    an exception of the earlier steps comes first. *)
Theorem allElements_chain
    (css : string -> option (Dom.Node -> Dom.Element -> bool))
    (op : ChainOp) (this : ScreenLocator) (h : Heap) (w : World) :
  allElements (chain css op this h).2 (chain css op this h).1 w
  = eff_bind (allElements h this) (run (stepOf css op)) w.
Proof.
  destruct op as [[|c sel]|[s|re]|role|s|];
    unfold chain, stepOf, locate, locateText, locateRole,
      ScreenLocator.filterText, first;
    try change (String.eqb (String c sel) "") with false; cbv iota;
    try apply allElements_chainLocator.
  change (allElements h this w
          = eff_bind (allElements h this)
              (run (reading (fun _ prev => Ok prev))) w).
  unfold eff_bind. destruct (allElements h this w) as [[found|e] w1]; [|done].
  by rewrite run_reading.
Qed.

(** ** Steps keep sets of elements of the document *)

Lemma NoDup_set_add (e : Dom.Element) (s : ElemSet) :
  NoDup s -> NoDup (set_add e s).
Proof.
  intros Hs. unfold set_add. case_bool_decide as He; [done|].
  apply NoDup_app. split; [done|]. split; [|apply NoDup_singleton].
  intros x Hx Hin. apply list_elem_of_singleton in Hin. by subst.
Qed.

Lemma NoDup_add_where (P : Dom.Element -> bool) (ds : list Dom.Element)
    (s : ElemSet) :
  NoDup s ->
  NoDup (fold_left (fun results d => if P d then set_add d results else results)
           ds s).
Proof.
  revert s. induction ds as [|d ds IH]; intros s Hs; [done|]. simpl.
  apply IH. destruct (P d); [by apply NoDup_set_add|done].
Qed.

Lemma NoDup_addWhere (isMatch : Predicate) (ds : list Dom.Element)
    (s : ElemSet) (rx : RegExps) :
  NoDup s -> NoDup (addWhere isMatch ds s rx).1.
Proof.
  revert s rx. induction ds as [|d ds IH]; intros s rx Hs; [done|]. simpl.
  destruct (isMatch d rx) as [found rx']. apply IH.
  destruct found; [by apply NoDup_set_add|done].
Qed.

Lemma NoDup_matchDescendants (doc : Dom.Node) (prev : ElemSet)
    (isMatch : Predicate) (rx : RegExps) :
  NoDup (matchDescendants doc prev isMatch rx).1.
Proof.
  unfold matchDescendants. generalize (NoDup_nil_2 (A:=Dom.Element)).
  generalize (@nil Dom.Element). revert rx.
  induction prev as [|e prev IH]; intros rx acc Hacc; [done|]. simpl.
  pose proof (NoDup_addWhere isMatch (Dom.allDescendants doc e) acc rx Hacc)
    as Hadd.
  destruct (addWhere isMatch (Dom.allDescendants doc e) acc rx)
    as [results rx'].
  by apply IH.
Qed.

Lemma NoDup_filterText (doc : Dom.Node) (prev : ElemSet) (s : TextQuery)
    (rx : RegExps) :
  NoDup (Match.filterText doc prev s rx).1.
Proof. apply NoDup_addWhere, NoDup_nil_2. Qed.

Lemma NoDup_set_add_all (es : list Dom.Element) (s : ElemSet) :
  NoDup s -> NoDup (set_add_all es s).
Proof.
  unfold set_add_all. revert s.
  induction es as [|e es IH]; intros s Hs; [done|]. simpl.
  by apply IH, NoDup_set_add.
Qed.

Lemma NoDup_matchQuerySelector
    (css : string -> option (Dom.Node -> Dom.Element -> bool))
    (doc : Dom.Node) (selector : string) (prev results : ElemSet) :
  matchQuerySelector css doc prev selector = Ok results -> NoDup results.
Proof.
  unfold matchQuerySelector. generalize (NoDup_nil_2 (A:=Dom.Element)).
  generalize (@nil Dom.Element).
  induction prev as [|e prev IH]; intros acc Hacc; simpl.
  - by intros [= <-].
  - destruct (querySelectorAll css doc e selector) as [ds|]; [|done]. simpl.
    by apply IH, NoDup_set_add_all.
Qed.

(** X3: the result of every step is a set again: [locate], [locateText],
    [locateRole] and [filterText] return no element twice, also when
    several members of the current set lead to it, and [first] returns at
    most one element; this holds for every query, whatever position a
    regular expression keeps. *)
Theorem steps_return_sets
    (css : string -> option (Dom.Node -> Dom.Element -> bool))
    (op : ChainOp) (doc : Dom.Node) (prev results : ElemSet)
    (rx rx' : RegExps) :
  NoDup prev ->
  stepOf css op doc prev rx = (Ok results, rx') ->
  NoDup results /\ (op = OpFirst -> length results <= 1).
Proof.
  intros Hprev Hstep. split.
  - destruct op as [[|c sel]|[s|re]|role|s|]; simpl in Hstep.
    + by injection Hstep as <- _.
    + injection Hstep as Hstep _. by eapply NoDup_matchQuerySelector.
    + apply returning_Ok in Hstep.
      pose proof (NoDup_matchDescendants doc prev
                    (fun e rx => (Js.includes (textOf doc e) s, rx)) rx) as H.
      unfold matchText in Hstep. by rewrite Hstep in H.
    + apply returning_Ok in Hstep.
      pose proof (NoDup_matchDescendants doc prev
                    (fun e rx => test re (textOf doc e) rx) rx) as H.
      unfold matchRegExp in Hstep. by rewrite Hstep in H.
    + apply returning_Ok in Hstep.
      pose proof (NoDup_matchDescendants doc prev
                    (fun e rx => (roleOf doc role e, rx)) rx) as H.
      unfold matchRole in Hstep. by rewrite Hstep in H.
    + apply returning_Ok in Hstep.
      pose proof (NoDup_filterText doc prev s rx) as H.
      by rewrite Hstep in H.
    + unfold reading in Hstep.
      destruct prev as [|e prev]; injection Hstep as <- _;
        [constructor|apply NoDup_singleton].
  - intros ->. simpl in Hstep. unfold reading in Hstep.
    destruct prev; injection Hstep as <- _; simpl; lia.
Qed.

Lemma steps_return_sets_witness :
  NoDup [[0; 1]; [0; 3]].
Proof.
  apply (steps_return_sets Fixture.tagCss
           (OpFilterText (QRegExp Fixture.bravo_g)) Fixture.alphabet
           [[0; 1]; [0; 2]; [0; 3]] [[0; 1]; [0; 3]] ∅ (<[1 := 11]> ∅)).
  - apply (bool_decide_unpack _). reflexivity.
  - vm_compute. reflexivity.
Defined.

Lemma elem_of_matchQuerySelector
    (css : string -> option (Dom.Node -> Dom.Element -> bool))
    (m : Dom.Node -> Dom.Element -> bool)
    (doc : Dom.Node) (selector : string) (prev : ElemSet) :
  css selector = Some m ->
  exists results,
    matchQuerySelector css doc prev selector = Ok results
    /\ forall d,
         d ∈ results
         <-> exists e,
               e ∈ prev /\ d ∈ Dom.allDescendants doc e /\ m doc d = true.
Proof.
  intros Hcss. unfold matchQuerySelector.
  assert (G : forall acc, exists results,
    matchQuerySelector_from css doc selector prev acc = Ok results
    /\ forall d,
         d ∈ results
         <-> (exists e,
                e ∈ prev /\ d ∈ Dom.allDescendants doc e /\ m doc d = true)
             \/ d ∈ acc).
  { induction prev as [|e prev IH]; intros acc; simpl.
    - exists acc. split; [done|]. intros d. split; [auto|].
      intros [(e & He & _)|?]; [by apply elem_of_nil in He|done].
    - unfold querySelectorAll. rewrite Hcss. simpl.
      destruct (IH (set_add_all
                      (filter (fun d => m doc d = true)
                         (Dom.allDescendants doc e)) acc))
        as (results & -> & Hres).
      exists results. split; [done|]. intros d.
      rewrite Hres, elem_of_set_add_all, list_elem_of_filter. split.
      + intros [(e' & ? & ? & ?)|[[? ?]|?]]; auto.
        * left. exists e'. rewrite elem_of_cons. auto.
        * left. exists e. rewrite elem_of_cons. auto.
      + intros [(e' & He' & ? & ?)|?]; auto.
        apply elem_of_cons in He' as [->|?]; auto.
        left. by exists e'. }
  destruct (G []) as (results & Hrun & Hres). exists results.
  split; [done|]. intros d. rewrite Hres, elem_of_nil. tauto.
Qed.

(** X4: with a selector that parses, [locate] never throws, and what it
    returns from a set is the union of what it finds below each member:
    the strict descendants of a member that the selector matches, and
    no other node. *)
Theorem locate_is_union_over_members
    (css : string -> option (Dom.Node -> Dom.Element -> bool))
    (m : Dom.Node -> Dom.Element -> bool)
    (doc : Dom.Node) (selector : string) (prev : ElemSet) :
  css selector = Some m ->
  exists results,
    matchQuerySelector css doc prev selector = Ok results
    /\ (forall d,
          d ∈ results
          <-> exists e,
                e ∈ prev /\ d ∈ Dom.allDescendants doc e /\ m doc d = true)
    /\ (forall d,
          d ∈ results
          <-> exists e one,
                e ∈ prev
                /\ matchQuerySelector css doc [e] selector = Ok one
                /\ d ∈ one).
Proof.
  intros Hcss.
  destruct (elem_of_matchQuerySelector css m doc selector prev Hcss)
    as (results & Hrun & Hres).
  exists results. split; [done|]. split; [done|].
  intros d. rewrite Hres. split.
  - intros (e & He & Hd & Hm).
    destruct (elem_of_matchQuerySelector css m doc selector [e] Hcss)
      as (one & Hone & Hin).
    exists e, one. split; [done|]. split; [done|]. apply Hin.
    exists e. by rewrite list_elem_of_singleton.
  - intros (e & one & He & Hone & Hd).
    destruct (elem_of_matchQuerySelector css m doc selector [e] Hcss)
      as (one' & Hone' & Hin).
    rewrite Hone in Hone'. injection Hone' as <-.
    apply Hin in Hd as (e' & He' & ? & ?).
    apply list_elem_of_singleton in He' as ->. by exists e.
Qed.

Lemma locate_is_union_over_members_witness :
  exists results,
    matchQuerySelector Fixture.tagCss Fixture.alphabet [[]; [0]] "div"
    = Ok results
    /\ forall d, d ∈ results
         <-> exists e one,
               e ∈ [[]; [0]]
               /\ matchQuerySelector Fixture.tagCss Fixture.alphabet [e] "div"
                  = Ok one
               /\ d ∈ one.
Proof.
  destruct (locate_is_union_over_members Fixture.tagCss _ Fixture.alphabet
              "div" [[]; [0]] eq_refl) as (results & Hrun & _ & Hunion).
  by exists results.
Defined.

(** ** Descendants in document order *)

Lemma Node_nested_ind (P : Dom.Node -> Prop) :
  (forall data, P (Dom.Text data)) ->
  (forall data, P (Dom.Comment data)) ->
  (forall e cs, Forall P cs -> P (Dom.Elem e cs)) ->
  forall n, P n.
Proof.
  intros Htext Hcomment Helem. fix IH 1. intros [data|data|e cs].
  - apply Htext.
  - apply Hcomment.
  - apply Helem. induction cs as [|c cs IHcs]; constructor.
    + apply IH.
    + apply IHcs.
Qed.

Lemma childrenFrom_cons (i : nat) (c : Dom.Node) (l : list Dom.Node) :
  childrenFrom i (c :: l)
  = match c with Dom.Elem _ _ => [[i]] | _ => [] end
    ++ map (cons i) (Dom.descendants c) ++ childrenFrom (S i) l.
Proof. reflexivity. Qed.

Lemma childrenFrom_head (i : nat) (l : list Dom.Node) (p : Dom.Element) :
  p ∈ childrenFrom i l -> exists j q, p = j :: q /\ i <= j.
Proof.
  revert i. induction l as [|c l IH]; intros i.
  - intros H. by apply elem_of_nil in H.
  - rewrite childrenFrom_cons, !elem_of_app. intros [H|[H|H]].
    + destruct c; try (by apply elem_of_nil in H).
      apply list_elem_of_singleton in H. subst. by exists i, [].
    + apply list_elem_of_fmap in H as (q & -> & _). by exists i, q.
    + destruct (IH _ H) as (j & q & -> & Hj). exists j, q. split; [done|lia].
Qed.

Lemma NoDup_childrenFrom (i : nat) (l : list Dom.Node) :
  Forall (fun c => NoDup (Dom.descendants c)) l -> NoDup (childrenFrom i l).
Proof.
  revert i. induction l as [|c l IH]; intros i Hl; [constructor|].
  inversion Hl as [|? ? Hc Hrest]; subst. rewrite childrenFrom_cons.
  assert (Hmap : NoDup (map (cons i) (Dom.descendants c))).
  { by apply (NoDup_fmap_2 (cons i)). }
  assert (Hfar : forall p, p ∈ childrenFrom (S i) l ->
                           forall q, p <> i :: q).
  { intros p Hp q ->. apply childrenFrom_head in Hp as (j & q' & [= <- _] & ?).
    lia. }
  apply NoDup_app. split; [|split].
  - destruct c; first [apply NoDup_nil_2|apply NoDup_singleton].
  - intros p Hp. rewrite elem_of_app. intros [Hin|Hin].
    + destruct c; try (by apply elem_of_nil in Hp).
      apply list_elem_of_singleton in Hp. subst.
      apply list_elem_of_fmap in Hin as (q & [= <-] & Hq).
      by apply descendants_nonempty in Hq.
    + destruct c; try (by apply elem_of_nil in Hp).
      apply list_elem_of_singleton in Hp. subst. by eapply Hfar.
  - apply NoDup_app. split; [done|]. split; [|by apply IH].
    intros p Hp Hin. apply list_elem_of_fmap in Hp as (q & -> & _).
    by eapply Hfar.
Qed.

Lemma NoDup_descendants (n : Dom.Node) : NoDup (Dom.descendants n).
Proof.
  induction n as [data|data|e cs IH] using Node_nested_ind;
    try constructor.
  by apply (NoDup_childrenFrom 0 cs).
Qed.

Lemma NoDup_allDescendants (doc : Dom.Node) (e : Dom.Element) :
  NoDup (Dom.allDescendants doc e).
Proof.
  unfold Dom.allDescendants. destruct (Dom.resolve doc e); [|constructor].
  apply (NoDup_fmap_2 (app e)), NoDup_descendants.
Qed.

Lemma add_where_fresh (P : Dom.Element -> bool) (ds : list Dom.Element)
    (s : ElemSet) :
  NoDup (s ++ ds) ->
  fold_left (fun results d => if P d then set_add d results else results) ds s
  = s ++ filter (fun d => P d = true) ds.
Proof.
  revert s. induction ds as [|d ds IH]; intros s Hnd.
  - simpl. by rewrite filter_nil, app_nil_r.
  - simpl. rewrite filter_cons.
    assert (Hnd' : NoDup ((s ++ [d]) ++ ds)) by (by rewrite <- app_assoc).
    assert (Hd : d ∉ s).
    { apply NoDup_app in Hnd as (_ & Hdis & _). intros Hin.
      apply (Hdis d Hin). left. }
    destruct (P d) eqn:HP.
    + unfold set_add. rewrite bool_decide_eq_false_2 by done.
      rewrite IH by done. rewrite decide_True by done.
      by rewrite <- app_assoc.
    + rewrite decide_False by (by intros ?).
      apply IH. apply NoDup_app in Hnd as (Hs & Hdis & Hds).
      apply NoDup_app. split; [done|]. split.
      * intros x Hx Hin. apply (Hdis x Hx). by right.
      * by inversion Hds.
Qed.

Lemma set_add_all_fresh (ds : list Dom.Element) :
  NoDup ds -> set_add_all ds [] = ds.
Proof.
  intros Hnd.
  pose proof (add_where_fresh (fun _ => true) ds [] Hnd) as H.
  simpl in H. unfold set_add_all.
  rewrite H. clear. induction ds as [|d ds IH]; [done|].
  rewrite filter_cons, decide_True by done. by rewrite IH.
Qed.

(** X5: from the set of one node, [locate(selector)] gives what
    [querySelectorAll(selector)] gives on that node, the same list or the
    same exception, and [matchDescendants] with a predicate that keeps no
    position, as those of [locateText] of a string and of [locateRole],
    gives the matching descendants of the node in document order; no
    descendant is listed twice. *)
Theorem steps_on_one_node
    (css : string -> option (Dom.Node -> Dom.Element -> bool))
    (doc : Dom.Node) (N : Dom.Element) (selector : string)
    (isMatch : Dom.Element -> bool) (rx : RegExps) :
  matchQuerySelector css doc [N] selector = querySelectorAll css doc N selector
  /\ matchDescendants doc [N] (pureMatch isMatch) rx
     = (filter (fun d => isMatch d = true) (Dom.allDescendants doc N), rx)
  /\ NoDup (Dom.allDescendants doc N).
Proof.
  split; [|split].
  - unfold matchQuerySelector. simpl. unfold querySelectorAll.
    destruct (css selector) as [m|]; [|done]. simpl. f_equal.
    apply set_add_all_fresh, NoDup_filter, NoDup_allDescendants.
  - rewrite matchDescendants_pure. f_equal. unfold descendantsWhere. simpl.
    apply (add_where_fresh isMatch _ []). apply NoDup_allDescendants.
  - apply NoDup_allDescendants.
Qed.

Lemma resolve_app (doc : Dom.Node) (p q : Dom.Element) :
  Dom.resolve doc (p ++ q) = Dom.resolve doc p ≫= fun n => Dom.resolve n q.
Proof.
  revert doc. induction p as [|i p IH]; intros doc; [done|]. simpl.
  destruct doc as [| |e cs]; try done.
  destruct (cs !! i) as [c|]; [|done]. simpl. apply IH.
Qed.

Lemma childrenFrom_resolve (e : Dom.ElementData) (pre l : list Dom.Node)
    (q : Dom.Element) :
  Forall (fun c => forall q, q ∈ Dom.descendants c ->
                    exists d cs, Dom.resolve c q = Some (Dom.Elem d cs)) l ->
  q ∈ childrenFrom (length pre) l ->
  exists d cs, Dom.resolve (Dom.Elem e (pre ++ l)) q = Some (Dom.Elem d cs).
Proof.
  revert pre. induction l as [|c l IH]; intros pre Hl.
  - intros H. by apply elem_of_nil in H.
  - inversion Hl as [|? ? Hc Hrest]; subst.
    assert (Hat : (pre ++ c :: l) !! length pre = Some c)
      by (by rewrite list_lookup_middle).
    rewrite childrenFrom_cons, !elem_of_app. intros [H|[H|H]].
    + destruct c as [| |d cs]; try (by apply elem_of_nil in H).
      apply list_elem_of_singleton in H. subst. simpl. rewrite Hat. simpl.
      eauto.
    + apply list_elem_of_fmap in H as (q' & -> & Hq'). simpl. rewrite Hat.
      simpl. by apply Hc.
    + specialize (IH (pre ++ [c]) Hrest).
      rewrite length_app, Nat.add_1_r, <- app_assoc in IH. by apply IH.
Qed.

Lemma descendants_resolve (n : Dom.Node) (q : Dom.Element) :
  q ∈ Dom.descendants n ->
  exists d cs, Dom.resolve n q = Some (Dom.Elem d cs).
Proof.
  revert q. induction n as [data|data|e cs IH] using Node_nested_ind;
    intros q; try (intros H; by apply elem_of_nil in H).
  intros Hq. by apply (childrenFrom_resolve e [] cs q IH).
Qed.

Lemma allDescendants_isElement (doc : Dom.Node) (e d : Dom.Element) :
  d ∈ Dom.allDescendants doc e -> isElement doc d.
Proof.
  unfold Dom.allDescendants, isElement, Dom.elementAt.
  destruct (Dom.resolve doc e) as [n|] eqn:He.
  - intros H. apply list_elem_of_fmap in H as (q & -> & Hq).
    rewrite resolve_app, He. simpl.
    destruct (descendants_resolve n q Hq) as (data & cs & ->). eauto.
  - intros H. by apply elem_of_nil in H.
Qed.

(** X6: every step maps a set of elements of the document to a set of
    elements of the document: what [locate], [locateText] and [locateRole]
    return are references that resolve to elements, and [filterText] and
    [first] return members of the current set. *)
Theorem steps_keep_elements
    (css : string -> option (Dom.Node -> Dom.Element -> bool))
    (op : ChainOp) (doc : Dom.Node) (prev results : ElemSet)
    (rx rx' : RegExps) :
  Forall (isElement doc) prev ->
  stepOf css op doc prev rx = (Ok results, rx') ->
  Forall (isElement doc) results.
Proof.
  intros Hprev Hstep. apply Forall_forall. intros d Hd.
  assert (Hbelow : forall isMatch,
            matchDescendants doc prev isMatch rx = (results, rx') ->
            isElement doc d).
  { intros isMatch H.
    pose proof (elem_of_matchDescendants doc prev isMatch rx d) as Hin.
    rewrite H in Hin. destruct (Hin Hd) as (e & _ & Hbelow & _).
    by eapply allDescendants_isElement. }
  rewrite Forall_forall in Hprev.
  destruct op as [[|c sel]|[s|re]|role|s|]; simpl in Hstep.
  - injection Hstep as Heq _. rewrite <- Heq in Hd. by apply Hprev.
  - injection Hstep as Hstep _.
    destruct (css (String c sel)) as [m|] eqn:Hcss.
    + destruct (elem_of_matchQuerySelector css m doc (String c sel) prev Hcss)
        as (results' & Hrun & Hres).
      rewrite Hrun in Hstep. injection Hstep as ->.
      apply Hres in Hd as (e & _ & Hd & _).
      by eapply allDescendants_isElement.
    + destruct prev as [|e prev]; simpl in Hstep.
      * injection Hstep as Heq. rewrite <- Heq in Hd.
        by apply elem_of_nil in Hd.
      * unfold matchQuerySelector in Hstep. simpl in Hstep.
        unfold querySelectorAll in Hstep. by rewrite Hcss in Hstep.
  - apply returning_Ok in Hstep. by eapply Hbelow.
  - apply returning_Ok in Hstep. by eapply Hbelow.
  - apply returning_Ok in Hstep. by eapply Hbelow.
  - apply returning_Ok in Hstep.
    pose proof (elem_of_filterText doc prev s rx d) as Hin.
    rewrite Hstep in Hin. destruct (Hin Hd) as [Hmem _]. by apply Hprev.
  - unfold reading in Hstep.
    destruct prev as [|e prev]; injection Hstep as Heq _;
      rewrite <- Heq in Hd.
    + by apply elem_of_nil in Hd.
    + apply list_elem_of_singleton in Hd as ->. apply Hprev. left.
Qed.

Lemma steps_keep_elements_witness :
  Forall (isElement Fixture.alphabet) [[0; 3]].
Proof.
  apply (steps_keep_elements Fixture.tagCss (OpLocateText (QString "delta"))
           Fixture.alphabet [[]] [[0; 3]] ∅ ∅).
  - repeat constructor. by eexists _, _.
  - reflexivity.
Defined.

(** ** Selectors that do not parse, filters, first *)

(** X7: chaining [locate] with a selector the host cannot parse throws
    nothing; the exception comes when the elements are asked for, and only
    if the set before the step is not empty: on the empty set the step
    gives the empty set, and [element()] then reports no element. *)
Theorem invalid_selector_is_lazy
    (css : string -> option (Dom.Node -> Dom.Element -> bool))
    (this : ScreenLocator) (h : Heap) (w : World) (selector : string) :
  css selector = None ->
  selector <> "" ->
  let r := locate css this selector h in
  (forall w1,
     allElements h this w = (Ok [], w1) ->
     allElements r.2 r.1 w = (Ok [], w1)
     /\ element r.2 r.1 w
        = (Throw ("no elements found but expected one: "
                  +:+ formatDescription r.2 r.1), w1))
  /\ (forall e rest w1,
        allElements h this w = (Ok (e :: rest), w1) ->
        exists m,
          allElements r.2 r.1 w = (Throw m, w1)
          /\ element r.2 r.1 w = (Throw m, w1)).
Proof.
  intros Hcss Hne r. subst r. unfold locate.
  destruct (String.eqb_spec selector ""); [done|].
  split.
  - intros w1 Hall.
    assert (Hnew : allElements
                     (chainLocator this ("locate(" +:+ selector +:+ ")")
                        (reading (fun doc prev =>
                                    matchQuerySelector css doc prev selector))
                        h).2
                     (chainLocator this ("locate(" +:+ selector +:+ ")")
                        (reading (fun doc prev =>
                                    matchQuerySelector css doc prev selector))
                        h).1 w = (Ok [], w1)).
    { rewrite allElements_chainLocator. unfold eff_bind. rewrite Hall.
      by rewrite run_reading. }
    split; [done|]. by apply single_empty.
  - intros e rest w1 Hall.
    assert (Hnew : allElements
                     (chainLocator this ("locate(" +:+ selector +:+ ")")
                        (reading (fun doc prev =>
                                    matchQuerySelector css doc prev selector))
                        h).2
                     (chainLocator this ("locate(" +:+ selector +:+ ")")
                        (reading (fun doc prev =>
                                    matchQuerySelector css doc prev selector))
                        h).1 w
                   = (Throw ("SyntaxError: '" +:+ selector
                             +:+ "' is not a valid selector"), w1)).
    { rewrite allElements_chainLocator. unfold eff_bind. rewrite Hall.
      rewrite run_reading. unfold matchQuerySelector. simpl.
      unfold querySelectorAll. by rewrite Hcss. }
    eexists. split; [exact Hnew|].
    unfold element, single. by apply bind_throw.
Qed.

Lemma invalid_selector_is_lazy_witness :
  exists m,
    allElements (locate Fixture.tagCss Fixture.screen "a[" Fixture.heap0).2
      (locate Fixture.tagCss Fixture.screen "a[" Fixture.heap0).1
      (Fixture.world Fixture.alphabet)
    = (Throw m, Fixture.world Fixture.alphabet).
Proof.
  destruct (proj2 (invalid_selector_is_lazy Fixture.tagCss Fixture.screen
                     Fixture.heap0 (Fixture.world Fixture.alphabet) "a["
                     eq_refl ltac:(discriminate)) [] []
              (Fixture.world Fixture.alphabet) eq_refl)
    as (m & Hm & _).
  by exists m.
Defined.

Lemma includes_empty (s : string) : Js.includes s "" = true.
Proof. by destruct s. Qed.

Lemma filterText_filter (doc : Dom.Node) (prev : ElemSet) (s : TextQuery)
    (rx : RegExps) :
  NoDup prev ->
  stateless s = true ->
  Match.filterText doc prev s rx
  = (filter (fun e => queryMatches doc s e = true) prev, rx).
Proof.
  intros Hnd Hs. rewrite filterText_stateless by done.
  by rewrite (add_where_fresh (queryMatches doc s) prev []).
Qed.

(** X8: for a string, or a regular expression with neither the [g] nor
    the [y] flag, [filterText] on a set is the filter of its members in
    their order and moves no [lastIndex]; filtering twice by the same query
    changes nothing more, two such filters give the same set in either
    order, and the empty string keeps every member. *)
Theorem filterText_is_a_filter (doc : Dom.Node) (prev : ElemSet)
    (s t : TextQuery) (rx : RegExps) :
  NoDup prev ->
  stateless s = true ->
  stateless t = true ->
  Match.filterText doc prev s rx
  = (filter (fun e => queryMatches doc s e = true) prev, rx)
  /\ Match.filterText doc (Match.filterText doc prev s rx).1 s rx
     = Match.filterText doc prev s rx
  /\ Match.filterText doc (Match.filterText doc prev s rx).1 t rx
     = Match.filterText doc (Match.filterText doc prev t rx).1 s rx
  /\ Match.filterText doc prev (QString "") rx = (prev, rx).
Proof.
  intros Hnd Hs Ht.
  assert (Hf : forall q, stateless q = true ->
                 Match.filterText doc prev q rx
                 = (filter (fun e => queryMatches doc q e = true) prev, rx))
    by (intros q Hq; by apply filterText_filter).
  assert (Hff : forall q q',
            stateless q = true -> stateless q' = true ->
            Match.filterText doc (Match.filterText doc prev q rx).1 q' rx
            = (filter (fun e => queryMatches doc q' e = true
                                /\ queryMatches doc q e = true) prev, rx)).
  { intros q q' Hq Hq'. rewrite (Hf q Hq). simpl.
    rewrite filterText_filter by (done || by apply NoDup_filter).
    f_equal. apply list_filter_filter. }
  split; [by apply Hf|]. split; [|split].
  - rewrite Hff, Hf by done. f_equal. apply list_filter_iff. tauto.
  - rewrite !Hff by done. f_equal. apply list_filter_iff. tauto.
  - rewrite Hf by done. f_equal. clear. unfold ElemSet in *.
    induction prev as [|e prev IH]; [done|].
    rewrite filter_cons, decide_True by apply includes_empty.
    by rewrite IH.
Qed.

Lemma filterText_is_a_filter_witness :
  Match.filterText Fixture.alphabet
    (Match.filterText Fixture.alphabet [[0]; [0; 1]; [0; 2]; [0; 3]]
       (QRegExp Fixture.bravo) ∅).1 (QString "charlie") ∅
  = Match.filterText Fixture.alphabet
      (Match.filterText Fixture.alphabet [[0]; [0; 1]; [0; 2]; [0; 3]]
         (QString "charlie") ∅).1 (QRegExp Fixture.bravo) ∅.
Proof.
  apply (filterText_is_a_filter Fixture.alphabet
           [[0]; [0; 1]; [0; 2]; [0; 3]] (QRegExp Fixture.bravo)
           (QString "charlie") ∅).
  - apply (bool_decide_unpack _). reflexivity.
  - reflexivity.
  - reflexivity.
Defined.

(** X9: [first()] after [first()] changes nothing: the locator
    [L.first().first()] finds what [L.first()] finds, at most one element,
    and throws what it throws. *)
Theorem first_twice (this : ScreenLocator) (h : Heap) (w : World) :
  let once := first this h in
  let twice := first once.1 once.2 in
  allElements twice.2 twice.1 w = allElements once.2 once.1 w
  /\ allElements once.2 once.1 w
     = eff_bind (allElements h this) (fun found => eff_ret (take 1 found)) w.
Proof.
  intros once twice. unfold twice, once, first.
  rewrite allElements_chainLocator. unfold eff_bind.
  rewrite allElements_chainLocator. unfold eff_bind.
  destruct (allElements h this w) as [[[|e found]|m] w1];
    [| |split; reflexivity];
    rewrite !run_reading; simpl; by rewrite run_reading.
Qed.

(** ** Interactions *)

(** X10: on a locator that matches one element, [press] and [fill] check
    the element before anything is done: on an element that is no input,
    textarea or select they throw with the tag name in lower case; [press]
    of a key the table does not hold throws with the name of the key.  In
    each case [act] is not called and the world stays as the
    materialization left it. *)
Theorem press_and_fill_reject
    (KeyPress : string -> option KeyEv)
    (valueSetter : Dom.Setter -> Dom.ElementData -> list Dom.Node
                   -> string -> Result string)
    (h : Heap) (this : ScreenLocator) (w w1 : World) (elem : Dom.Element)
    (d : Dom.ElementData) (cs : list Dom.Node) (name value : string) :
  allElements h this w = (Ok [elem], w1) ->
  Dom.elementAt (document w) elem = Some (d, cs) ->
  (hasValue (Dom.iface d) = false ->
     press KeyPress valueSetter h this name w
     = (Throw ("cannot press key on tag: " +:+ Js.toLowerCase (Dom.tagName d)),
        w1)
     /\ fill valueSetter h this value w
        = (Throw ("cannot fill out tag: " +:+ Js.toLowerCase (Dom.tagName d)),
           w1))
  /\ (hasValue (Dom.iface d) = true ->
      KeyPress name = None ->
      press KeyPress valueSetter h this name w
      = (Throw ("unknown key: " +:+ name
                +:+ "; maybe not yet added to KeyPress?"), w1)).
Proof.
  intros Hall Hd.
  pose proof (fun what => single_one h this what w w1 elem Hall) as Hone.
  assert (Hdata : dataOf elem w1 = (Ok d, w1)).
  { unfold dataOf. by rewrite (allElements_document _ _ _ _ _ Hall), Hd. }
  split.
  - intros Hval. unfold press, fill.
    rewrite !(bind_ok _ _ _ _ _ (Hone _)), !(bind_ok _ _ _ _ _ Hdata).
    by rewrite Hval.
  - intros Hval Hkey. unfold press.
    rewrite (bind_ok _ _ _ _ _ (Hone _)), (bind_ok _ _ _ _ _ Hdata).
    by rewrite Hval, Hkey.
Qed.

Lemma press_and_fill_reject_witness :
  press Fixture.keys Fixture.verbatim Fixture.divs.2 Fixture.divs.1 "F"
    (Fixture.world Fixture.form)
  = (Throw "cannot press key on tag: div", Fixture.world Fixture.form)
  /\ press Fixture.keys Fixture.verbatim Fixture.inputs.2 Fixture.inputs.1
       "Escape" (Fixture.world Fixture.form)
     = (Throw "unknown key: Escape; maybe not yet added to KeyPress?",
        Fixture.world Fixture.form).
Proof.
  split.
  - refine (proj1 (proj1 (press_and_fill_reject Fixture.keys Fixture.verbatim
              Fixture.divs.2
              Fixture.divs.1 (Fixture.world Fixture.form)
              (Fixture.world Fixture.form) [0]
              {| Dom.tagName := "DIV"; Dom.iface := Dom.HTMLElement;
                 Dom.attributes := []; Dom.value := "";
                 Dom.ownValueSetter := None; Dom.protoValueSetter := None |}
              [Dom.Text "Prefix"; Fixture.input [("role", "textbox")] ""]
              "F" "x" _ _) _)); reflexivity.
  - refine (proj2 (press_and_fill_reject Fixture.keys Fixture.verbatim
              Fixture.inputs.2
              Fixture.inputs.1 (Fixture.world Fixture.form)
              (Fixture.world Fixture.form) [0; 1]
              {| Dom.tagName := "INPUT"; Dom.iface := Dom.HTMLInputElement;
                 Dom.attributes := [("role", "textbox")]; Dom.value := "";
                 Dom.ownValueSetter := None; Dom.protoValueSetter := Some 0 |}
              [] "Escape" "x" _ _) _ _); reflexivity.
Defined.

(** The lower case of the code units below 256: the letters from 192 to
    222 change as [A] to [Z] do, the multiplication sign 215 and the sharp s
    223 stay. *)
Example toLowerCase_code_units :
  map (fun n => nat_of_ascii (Js.lower (ascii_of_nat n)))
    [65; 90; 97; 192; 214; 215; 216; 222; 223; 255]
  = [97; 122; 97; 224; 246; 215; 248; 254; 223; 255].
Proof. reflexivity. Qed.

(** X11: with an [act] that runs its callback, [click] on a locator that
    matches one element dispatches on it a focus, a click and a blur event,
    in this order and all bubbling, and [blur] calls the element's [blur()]
    when it is an HTML element and then dispatches a composed blur event;
    neither touches the document, its URL or its title. *)
Theorem click_and_blur_record
    (h : Heap) (this : ScreenLocator) (w w1 : World) (elem : Dom.Element)
    (d : Dom.ElementData) (cs : list Dom.Node) :
  allElements h this w = (Ok [elem], w1) ->
  Dom.elementAt (document w) elem = Some (d, cs) ->
  (forall A (cb : Eff A), ScreenLocator.act this A cb = cb) ->
  w1 = setLastIndex (lastIndex w1) w
  /\ click h this w
     = (Ok tt,
        logged w1 [ DispatchEvent elem (FocusEvent "focus" bubbling);
                    DispatchEvent elem (MouseEvent "click" bubbling);
                    DispatchEvent elem (FocusEvent "blur" bubbling) ])
  /\ blur h this w
     = (Ok tt,
        logged w1 ((if Dom.isHTMLElement (Dom.iface d)
                    then [CallBlur elem] else [])
                   ++ [DispatchEvent elem (FocusEvent "blur" bubbling_composed)])).
Proof.
  intros Hall Hd Hact.
  pose proof (fun what => single_one h this what w w1 elem Hall) as Hone.
  assert (Hdata : dataOf elem w1 = (Ok d, w1)).
  { unfold dataOf. by rewrite (allElements_document _ _ _ _ _ Hall), Hd. }
  split; [by eapply allElements_frame|]. split.
  - unfold click. rewrite (bind_ok _ _ _ _ _ (Hone _)), Hact.
    unfold eff_bind, dispatchEvent, record, logged. simpl.
    by rewrite <- !app_assoc.
  - unfold blur.
    rewrite (bind_ok _ _ _ _ _ (Hone _)), (bind_ok _ _ _ _ _ Hdata), Hact.
    unfold eff_bind, dispatchEvent, record, eff_ret, logged.
    destruct (Dom.isHTMLElement (Dom.iface d)); simpl; [|done].
    by rewrite <- !app_assoc.
Qed.

Lemma click_and_blur_record_witness :
  actions (click Fixture.inputs.2 Fixture.inputs.1
             (Fixture.world Fixture.form)).2
  = [ DispatchEvent [0; 1] (FocusEvent "focus" bubbling);
      DispatchEvent [0; 1] (MouseEvent "click" bubbling);
      DispatchEvent [0; 1] (FocusEvent "blur" bubbling) ].
Proof.
  rewrite (proj1 (proj2 (click_and_blur_record Fixture.inputs.2
                    Fixture.inputs.1
                    (Fixture.world Fixture.form) (Fixture.world Fixture.form)
                    [0; 1] _ _
                    eq_refl eq_refl (fun A cb => eq_refl)))).
  reflexivity.
Defined.

(** X12: with an [act] that runs its callback, on a locator that matches
    one input whose value setter is the prototype's, [press] records the
    same seven actions whether or not the key is printable: [focus()], the
    focus event, keydown, keyup, keypress, input and change, and never a
    blur; [fill] records [focus()], the focus event, input, change,
    [blur()] and a composed blur event.  The value becomes what the setter
    stores for the old value followed by the key's text, or for the
    argument of [fill]; URL and title stay as they were. *)
Theorem press_and_fill_record
    (KeyPress : string -> option KeyEv)
    (valueSetter : Dom.Setter -> Dom.ElementData -> list Dom.Node
                   -> string -> Result string)
    (h : Heap) (this : ScreenLocator) (w w1 : World) (elem : Dom.Element)
    (d : Dom.ElementData) (cs : list Dom.Node) (name value : string)
    (keyEv : KeyEv) (setter : Dom.Setter) (pressed filled : string) :
  allElements h this w = (Ok [elem], w1) ->
  Dom.elementAt (document w) elem = Some (d, cs) ->
  hasValue (Dom.iface d) = true ->
  nativeValue d ->
  Dom.protoValueSetter d = Some setter ->
  (forall A (cb : Eff A), ScreenLocator.act this A cb = cb) ->
  KeyPress name = Some keyEv ->
  (isPrintable (keyCode keyEv) = true ->
   valueSetter setter d cs (Dom.value d +:+ key keyEv) = Ok pressed) ->
  valueSetter setter d cs value = Ok filled ->
  press KeyPress valueSetter h this name w
  = (Ok tt,
     logged
       (withDocument w1
          (if isPrintable (keyCode keyEv)
           then Dom.update (Dom.setValue pressed) elem (document w)
           else document w))
       [ CallFocus elem;
         DispatchEvent elem (FocusEvent "focus" bubbling);
         DispatchEvent elem (KeyboardEvent "keydown" keyEv);
         DispatchEvent elem (KeyboardEvent "keyup" keyEv);
         DispatchEvent elem (KeyboardEvent "keypress" keyEv);
         DispatchEvent elem (PlainEvent "input" bubbling);
         DispatchEvent elem (PlainEvent "change" bubbling) ])
  /\ fill valueSetter h this value w
     = (Ok tt,
        logged
          (withDocument w1 (Dom.update (Dom.setValue filled) elem (document w)))
          [ CallFocus elem;
            DispatchEvent elem (FocusEvent "focus" bubbling);
            DispatchEvent elem (PlainEvent "input" bubbling);
            DispatchEvent elem (PlainEvent "change" bubbling);
            CallBlur elem;
            DispatchEvent elem (FocusEvent "blur" bubbling_composed) ]).
Proof.
  intros Hall Hd Hval Hnat Hproto Hact Hkey Hpressed Hfilled.
  pose proof (allElements_document _ _ _ _ _ Hall) as Hdoc.
  rewrite (press_runs _ _ _ _ _ _ _ _ _ _ _ Hall Hd Hval Hact Hkey).
  rewrite (fill_runs _ _ _ _ _ _ _ _ _ Hall Hd Hval Hact).
  rewrite <- Hdoc in *. split.
  - destruct (isPrintable (keyCode keyEv)).
    + unfold eff_bind, dispatchEvent, record. simpl.
      erewrite setElementValue_native; [|exact Hd|done|done].
      rewrite (Hpressed eq_refl). unfold logged, withDocument. simpl.
      by rewrite <- !app_assoc.
    + unfold eff_bind, dispatchEvent, record, eff_ret, logged, withDocument.
      simpl. by rewrite <- !app_assoc.
  - unfold eff_bind, dispatchEvent, record. simpl.
    erewrite setElementValue_native; [|exact Hd|done|done].
    rewrite Hfilled. unfold logged, withDocument. simpl.
    by rewrite <- !app_assoc.
Qed.

Lemma press_and_fill_record_witness :
  length (actions (press Fixture.keys Fixture.verbatim Fixture.inputs.2
                     Fixture.inputs.1
                     "Enter" (Fixture.world Fixture.form)).2) = 7.
Proof.
  assert (Hnat : nativeValue
                   {| Dom.tagName := "INPUT"; Dom.iface := Dom.HTMLInputElement;
                      Dom.attributes := [("role", "textbox")];
                      Dom.value := ""; Dom.ownValueSetter := None;
                      Dom.protoValueSetter := Some 0 |})
    by (split; [reflexivity|discriminate]).
  rewrite (proj1 (press_and_fill_record Fixture.keys Fixture.verbatim
                    Fixture.inputs.2
                    Fixture.inputs.1 (Fixture.world Fixture.form)
                    (Fixture.world Fixture.form) [0; 1] _ []
                    "Enter" "x" _ 0 "Enter" "x" eq_refl eq_refl eq_refl Hnat
                    eq_refl (fun A cb => eq_refl) eq_refl
                    (fun _ => eq_refl) eq_refl)).
  reflexivity.
Defined.

Lemma setElementValue_own
    (valueSetter : Dom.Setter -> Dom.ElementData -> list Dom.Node
                   -> string -> Result string)
    (elem : Dom.Element) (f : string -> string) (w : World)
    (d : Dom.ElementData) (cs : list Dom.Node) (stored : string) :
  Dom.elementAt (document w) elem = Some (d, cs) ->
  Dom.protoValueSetter d = None
  \/ Dom.ownValueSetter d = Dom.protoValueSetter d ->
  (forall setter,
     Dom.ownValueSetter d = Some setter ->
     valueSetter setter d cs (f (Dom.value d)) = Ok stored) ->
  setElementValue valueSetter elem f w
  = (Throw "element does not have a value setter",
     if is_Some_b (Dom.ownValueSetter d)
     then (writeValue elem stored w).2 else w).
Proof.
  intros Hd Hsetter Hstored.
  unfold setElementValue, callSetter, eff_bind, eff_ret, eff_throw.
  rewrite Hd. cbv beta iota zeta.
  destruct (Dom.ownValueSetter d) as [own|] eqn:Ho,
    (Dom.protoValueSetter d) as [proto|] eqn:Hp.
  - destruct Hsetter as [|[= <-]]; [done|].
    rewrite bool_decide_eq_true_2 by done. cbv beta iota delta [negb].
    by rewrite ?Hd, (Hstored own eq_refl).
  - by rewrite ?Hd, (Hstored own eq_refl).
  - by destruct Hsetter.
  - done.
Qed.

(** X13: when the prototype has no value setter or its setter is the
    element's own, [fill] throws [element does not have a value setter]
    from inside [act]: when the element has a setter of its own it was
    called all the same, and the value is what that setter stores; when it
    has none the value is untouched; the events after the assignment
    (input, change, blur) are not dispatched. *)
Theorem fill_without_host_setter
    (valueSetter : Dom.Setter -> Dom.ElementData -> list Dom.Node
                   -> string -> Result string)
    (h : Heap) (this : ScreenLocator) (w w1 : World) (elem : Dom.Element)
    (d : Dom.ElementData) (cs : list Dom.Node) (value stored : string) :
  allElements h this w = (Ok [elem], w1) ->
  Dom.elementAt (document w) elem = Some (d, cs) ->
  hasValue (Dom.iface d) = true ->
  Dom.protoValueSetter d = None
  \/ Dom.ownValueSetter d = Dom.protoValueSetter d ->
  (forall setter,
     Dom.ownValueSetter d = Some setter ->
     valueSetter setter d cs value = Ok stored) ->
  (forall A (cb : Eff A), ScreenLocator.act this A cb = cb) ->
  fill valueSetter h this value w
  = (Throw "element does not have a value setter",
     logged
       (withDocument w1
          (if is_Some_b (Dom.ownValueSetter d)
           then Dom.update (Dom.setValue stored) elem (document w)
           else document w))
       [ CallFocus elem; DispatchEvent elem (FocusEvent "focus" bubbling) ]).
Proof.
  intros Hall Hd Hval Hsetter Hstored Hact.
  pose proof (allElements_document _ _ _ _ _ Hall) as Hdoc.
  rewrite (fill_runs _ _ _ _ _ _ _ _ _ Hall Hd Hval Hact).
  rewrite <- Hdoc in *.
  unfold eff_bind, dispatchEvent, record. simpl.
  erewrite setElementValue_own; [|exact Hd|done|done].
  unfold logged, withDocument, writeValue.
  destruct (is_Some_b (Dom.ownValueSetter d)); simpl;
    by rewrite <- !app_assoc.
Qed.

Lemma fill_without_host_setter_witness :
  let own :=
    Dom.Elem
      {| Dom.tagName := "INPUT"; Dom.iface := Dom.HTMLInputElement;
         Dom.attributes := []; Dom.value := "";
         Dom.ownValueSetter := Some 1; Dom.protoValueSetter := None |} [] in
  (fill Fixture.verbatim Fixture.heap0 Fixture.screen "x" (Fixture.world own)).1
  = Throw "element does not have a value setter"
  /\ valueOf (fill Fixture.verbatim Fixture.heap0 Fixture.screen "x"
                (Fixture.world own)).2 []
     = Some "x".
Proof.
  intros own.
  rewrite (fill_without_host_setter Fixture.verbatim Fixture.heap0
             Fixture.screen
             (Fixture.world own) (Fixture.world own) [] _ [] "x" "x"
             eq_refl eq_refl eq_refl
             (or_introl eq_refl) (fun _ _ => eq_refl) (fun A cb => eq_refl)).
  split; reflexivity.
Defined.

(** ** The session *)

(** X14: a [render] that returns gives a locator with no step, rooted at
    the container the host appended, which finds that container alone and
    runs its actions in the [act] of the lifecycle; it has pushed one thunk
    behind the ones registered, the teardown of the root it created and of
    that container, and has left every array of the heap as it was.  A
    [render] that throws, because the host, the root or the first rendering
    threw, has registered nothing. *)
Theorem render_outcome {ROOT NODE : Type}
    (host : DomScreen.HostDocument) (this : DomScreen.DomScreen ROOT NODE)
    (node : NODE) (h : Heap) (w : World) :
  (forall l s h' w',
     DomScreen.render host this node h w = (Ok l, s, h', w') ->
     (exists rt wa wb,
        DomScreen.appendContainer host w = (Ok (root l), wa)
        /\ DomScreen.createRoot (DomScreen.lifecycle this) (root l) wa
           = (Ok rt, wb)
        /\ DomScreen.act (DomScreen.lifecycle this) unit
             (DomScreen.render_ (DomScreen.lifecycle this) rt node) wb
           = (Ok tt, w')
        /\ DomScreen.cleanups s
           = DomScreen.cleanups this
             ++ [DomScreen.teardown host (DomScreen.lifecycle this) rt
                   (root l)])
     /\ describe h' l = []
     /\ (forall w0, allElements h' l w0 = (Ok [root l], w0))
     /\ ScreenLocator.act l = DomScreen.act (DomScreen.lifecycle this)
     /\ DomScreen.lifecycle s = DomScreen.lifecycle this
     /\ (forall i old, h !! i = Some old -> h' !! i = Some old))
  /\ (forall m s h' w',
        DomScreen.render host this node h w = (Throw m, s, h', w') ->
        s = this /\ h' = h).
Proof.
  split.
  - intros l s h' w' Hrender.
    destruct (render_Ok _ _ _ _ _ _ _ _ _ Hrender)
      as (rt & wa & wb & Ha & Hc & Hr & Hlc & Hs & Hof).
    destruct (of_spec (DomScreen.act (DomScreen.lifecycle this)) (root l) h)
      as (Harr & Hroot & Hact & Hfr).
    rewrite <- Hof in Harr, Hroot, Hact, Hfr. simpl in *.
    split; [by exists rt, wa, wb|].
    split; [unfold describe; by rewrite Harr|].
    split; [|done].
    intros w0. unfold allElements, run. rewrite Harr. simpl.
    by rewrite setLastIndex_same.
  - unfold DomScreen.render, eff_bind, eff_ret.
    destruct (DomScreen.appendContainer host w) as [[container|m0] w1].
    + destruct (DomScreen.createRoot _ container w1) as [[rt|m1] w2].
      * destruct (DomScreen.act _ unit _ w2) as [[[]|m2] w3].
        -- by destruct (of_ _ container h).
        -- by intros m s h' w' [= _ <- <- _].
      * by intros m s h' w' [= _ <- <- _].
    + by intros m s h' w' [= _ <- <- _].
Qed.

(** X15: a [cleanup] that throws stopped at the first thunk that threw:
    the thunks before it were called in order and returned, the ones behind
    it were not called, and the list is not emptied, so that the next
    [cleanup] starts again with the first thunk. *)
Theorem cleanup_stops_at_throw {ROOT NODE : Type}
    (this this' : DomScreen.DomScreen ROOT NODE) (w w' : World)
    (m : string) (called : list nat) :
  DomScreen.cleanup this w = (Throw m, called, this', w') ->
  this' = this
  /\ exists k thunk wk,
       DomScreen.cleanups this !! k = Some thunk
       /\ called = seq 0 (S k)
       /\ foldr (fun thunk rest => thunk >> rest) (eff_ret tt)
            (take k (DomScreen.cleanups this)) w = (Ok tt, wk)
       /\ thunk wk = (Throw m, w').
Proof.
  unfold DomScreen.cleanup.
  destruct (DomScreen.runCleanups 0 (DomScreen.cleanups this) w)
    as [[[[]|m0] called0] w0] eqn:Hloop; [done|].
  intros [= <- <- <- <-]. split; [done|]. by eapply runCleanups_throw.
Qed.

Lemma cleanup_stops_at_throw_witness :
  let failing : DomScreen.DomScreen Dom.Element string :=
    {| DomScreen.lifecycle := Fixture.counting;
       DomScreen.cleanups :=
         [ record (CallBlur [0]); eff_throw "torn"; record (CallBlur [2]) ] |} in
  exists w',
    DomScreen.cleanup failing (Fixture.world Fixture.alphabet)
    = (Throw "torn", [0; 1], failing, w')
    /\ actions w' = [CallBlur [0]].
Proof.
  intros failing.
  destruct (DomScreen.cleanup failing (Fixture.world Fixture.alphabet))
    as [[[r called] s] w'] eqn:Hc.
  assert (Hr : r = Throw "torn" /\ called = [0; 1]
               /\ actions w' = [CallBlur [0]]).
  { vm_compute in Hc. by injection Hc as <- <- _ <-. }
  destruct Hr as (-> & -> & Hw).
  destruct (cleanup_stops_at_throw _ _ _ _ _ _ Hc) as [-> _].
  by exists w'.
Defined.

(** X16: the teardown thunk first destroys the root inside [act]; if the
    container has no parent by then it throws and neither removes anything
    nor resets the title; if destroying the root throws, that exception
    leaves the thunk; a teardown that returns has reset the title of the
    document to the empty string. *)
Theorem teardown_outcome {ROOT NODE : Type}
    (host : DomScreen.HostDocument)
    (lc : DomScreen.RenderLifecycle ROOT NODE) (rt : ROOT)
    (container : Dom.Element) (w : World) :
  (forall w',
     DomScreen.teardown host lc rt container w = (Ok tt, w') -> title w' = "")
  /\ (forall w1,
        DomScreen.act lc unit (DomScreen.destroyRoot lc rt) w = (Ok tt, w1) ->
        DomScreen.hasParent host container w1 = false ->
        DomScreen.teardown host lc rt container w
        = (Throw "container parentNode is null during cleanup.", w1))
  /\ (forall m w1,
        DomScreen.act lc unit (DomScreen.destroyRoot lc rt) w = (Throw m, w1) ->
        DomScreen.teardown host lc rt container w = (Throw m, w1)).
Proof.
  unfold DomScreen.teardown, eff_bind.
  destruct (DomScreen.act lc unit (DomScreen.destroyRoot lc rt) w)
    as [[[]|m0] w1].
  - split; [|split].
    + intros w'. destruct (DomScreen.hasParent host container w1); [|done].
      simpl. destruct (DomScreen.removeFromParent host container w1)
        as [[[]|m1] w2]; [|done].
      unfold DomScreen.setTitle. by intros [= <-].
    + intros w1' [= <-] Hparent. by rewrite Hparent.
    + done.
  - split; [done|]. split; [done|]. by intros m w1' [= <- <-].
Qed.

(** ** Matchers *)

Section MoreMatchers.

Context (css : string -> option (Dom.Node -> Dom.Element -> bool)).
Context (stringify : Dom.Node -> Testing.Shown -> string).
Context (pathname : string -> Result string).
Context (settle : nat -> World -> World).

(** X17: before [DomScreen.initTest] the global [act] throws its hint:
    the retry wrapper throws it without evaluating the wrapped matcher, and
    the locator that [verifyReceiver] builds for an element still finds the
    element but throws the same hint on [click], leaving the world as it
    was. *)
Theorem uninitialised_act_throws {T : Type} (fn : SyncMatcher T)
    (this : MatcherContext) (receiver : Receiver) (arg : T)
    (e : Dom.Element) (h : Heap) (w : World) :
  let hint :=
    "DomScreen.initTest() not called before DomScreen.globalAct()."
    +:+ StaticDomScreen.initHintMsg in
  waitForSuccess None settle fn this receiver arg h w
  = {| outcome := Throw hint; heap := h; world := w; steps := [] |}
  /\ exists l h',
       verifyReceiver None css (RElement e) h = Ok (l, h')
       /\ allElements h' l w = (Ok [e], w)
       /\ click h' l w = (Throw hint, w).
Proof.
  intros hint. split; [reflexivity|].
  destruct (of_spec (StaticDomScreen.globalAct None) e h)
    as (Harr & Hroot & Hact & _).
  unfold verifyReceiver.
  destruct (of_ (StaticDomScreen.globalAct None) e h) as [l h'].
  simpl in *. exists l, h'. split; [done|].
  assert (Hall : allElements h' l w = (Ok [e], w)).
  { unfold allElements, run. rewrite Harr, Hroot. simpl.
    by rewrite setLastIndex_same. }
  split; [done|]. unfold click.
  rewrite (bind_ok _ _ _ _ _ (single_one h' l "to click" w w e Hall)).
  by rewrite Hact.
Qed.

(** The hint is the whole constant of the module: its first sentence, and
    the example that follows it. *)
Example initHintMsg_text :
  String.length StaticDomScreen.initHintMsg = 203
  /\ String.prefix (String (ascii_of_nat 10) "HINT: call DomScreen.initTest()")
       StaticDomScreen.initHintMsg = true
  /\ Js.includes StaticDomScreen.initHintMsg
       "DomScreen.initTest({ act, expect, afterEach });" = true.
Proof. repeat split. Qed.

Lemma toHaveURLPath_world (globalAct_var : option DomScreenAct)
    (this : MatcherContext) (receiver : Receiver) (path : string)
    (h : Heap) (w : World) :
  (toHaveURLPath globalAct_var css stringify pathname this receiver path h w).2
  = w.
Proof.
  unfold toHaveURLPath, eff_bind, settled, eff_ret.
  destruct (verifyReceiver globalAct_var css receiver h) as [[loc h0]|];
    [|done].
  by destruct (pathname (URL w)).
Qed.

Context {T : Type} (fn : SyncMatcher T).
Context (this : MatcherContext) (receiver : Receiver) (arg : T).

Ltac unroll_loop :=
  repeat match goal with
         | |- context [fn this receiver arg ?h ?w] =>
             let E := fresh "Hfn" in
             destruct (fn this receiver arg h w) as [[[? ?]|?] ?] eqn:E; simpl
         | |- context [Bool.eqb (isNot this) (pass ?r)] =>
             let E := fresh "Hpass" in
             destruct (Bool.eqb (isNot this) (pass r)) eqn:E; simpl
         end.

Ltac unroll_quiet Hquiet :=
  repeat match goal with
         | |- context [fn this receiver arg ?h ?w] =>
             let E := fresh "Hfn" in
             let Q := fresh "Hw" in
             pose proof (Hquiet h w) as Q;
             destruct (fn this receiver arg h w) as [[[? ?]|?] ?] eqn:E;
             simpl in Q; subst; simpl
         | |- context [Bool.eqb (isNot this) (pass ?r)] =>
             let E := fresh "Hpass" in
             destruct (Bool.eqb (isNot this) (pass r)) eqn:E; simpl
         end.

(** X18: the retry wrapper sleeps at most 75 milliseconds in all; around
    a matcher that leaves the world as it finds it, as [toHaveURLPath]
    does, the world it leaves is the world it started in after the pending
    work of each sleep, in order; when the first evaluation succeeds or
    throws it returns at once, with that result or exception and without
    any sleep, in the world that evaluation left. *)
Theorem retry_time_bound (globalAct : DomScreenAct) (h : Heap) (w : World) :
  (forall A (cb : Eff A), globalAct A cb = cb) ->
  let run := waitForSuccess (Some globalAct) settle fn this receiver arg h w in
  sum_list (slept (steps run)) <= 75
  /\ ((forall h0 w0, (fn this receiver arg h0 w0).2 = w0) ->
      world run
      = fold_left (fun w0 millis => settle millis w0) (slept (steps run)) w)
  /\ (forall this0 receiver0 path h0 w0,
        (toHaveURLPath (Some globalAct) css stringify pathname this0
           receiver0 path h0 w0).2 = w0)
  /\ (forall r h1 w1,
        fn this receiver arg h w = (Ok (r, h1), w1) ->
        pass r <> isNot this ->
        run = {| outcome := Ok r; heap := h1; world := w1;
                 steps := [Evaluate (Ok r)] |})
  /\ (forall m w1,
        fn this receiver arg h w = (Throw m, w1) ->
        run = {| outcome := Throw m; heap := h; world := w1;
                 steps := [Evaluate (Throw m)] |}).
Proof.
  intros Hact run. subst run.
  unfold waitForSuccess, StaticDomScreen.globalAct. rewrite Hact.
  unfold retrying. cbn [attempts].
  split; [|split; [|split; [|split]]].
  - unroll_loop; lia.
  - intros Hquiet. unroll_quiet Hquiet; reflexivity.
  - intros this0 receiver0 path h0 w0. apply toHaveURLPath_world.
  - intros r h1 w1 Hfn Hpass. rewrite Hfn.
    destruct (Bool.eqb (isNot this) (pass r)) eqn:Heq; [|done].
    apply Bool.eqb_prop in Heq. congruence.
  - intros m w1 Hfn. by rewrite Hfn.
Qed.

End MoreMatchers.

Lemma retry_time_bound_witness :
  sum_list
    (slept
       (steps
          (waitForSuccess (Some plainAct) Fixture.still
             (toHaveURLPath (Some plainAct) Fixture.tagCss Fixture.shown
                Fixture.pathOf)
             Fixture.positive (RElement []) "/never" [[]]
             (Fixture.world Fixture.alphabet))))
  <= 75.
Proof.
  apply (retry_time_bound Fixture.tagCss Fixture.shown Fixture.pathOf
           Fixture.still
           (toHaveURLPath (Some plainAct) Fixture.tagCss Fixture.shown
              Fixture.pathOf)
           Fixture.positive (RElement []) "/never" plainAct [[]]
           (Fixture.world Fixture.alphabet) (fun A cb => eq_refl)).
Defined.

Lemma nonempty_iff {A} (l : list A) :
  (0 <? length l) = true <-> exists x, x ∈ l.
Proof.
  destruct l as [|x l]; simpl.
  - split; [done|]. intros [x Hx]. by apply elem_of_nil in Hx.
  - split; [|done]. intros _. exists x. left.
Qed.

Lemma existsb_elem_of {A} (f : A -> bool) (l : list A) :
  existsb f l = true <-> exists x, x ∈ l /\ f x = true.
Proof.
  rewrite existsb_exists. split; intros (x & Hx & Hf); exists x;
    (split; [by apply list_elem_of_In|done]).
Qed.

Lemma filterText_nonempty (doc : Dom.Node) (elems : ElemSet) (s : TextQuery)
    (rx : RegExps) :
  stateless s = true ->
  (0 <? length (Match.filterText doc elems s rx).1)
  = existsb (queryMatches doc s) elems.
Proof.
  intros Hs. apply Bool.eq_iff_eq_true. rewrite nonempty_iff, existsb_elem_of.
  rewrite filterText_stateless by done. simpl.
  split; intros (x & Hx); exists x.
  - apply elem_of_add_where in Hx as [?|Hx]; [done|].
    by apply elem_of_nil in Hx.
  - apply elem_of_add_where. by left.
Qed.

Lemma filterMatches_filter
    (css : string -> option (Dom.Node -> Dom.Element -> bool))
    (m : Dom.Node -> Dom.Element -> bool) (doc : Dom.Node)
    (selector : string) (elems : list Dom.Element) :
  css selector = Some m ->
  filterMatches css doc selector elems = Ok (List.filter (m doc) elems).
Proof.
  intros Hcss. induction elems as [|el rest IH]; [done|]. simpl.
  unfold matches at 1. rewrite Hcss. simpl. rewrite IH. simpl.
  by destruct (m doc el).
Qed.

Section PassConditions.

Context (globalAct_var : option DomScreenAct).
Context (css : string -> option (Dom.Node -> Dom.Element -> bool)).
Context (stringify : Dom.Node -> Testing.Shown -> string).

Lemma toContainText_pass (this : MatcherContext) (loc : ScreenLocator)
    (text : TextQuery) (h : Heap) (w w1 : World) (elems : list Dom.Element) :
  allElements h loc w = (Ok elems, w1) ->
  passOf (toContainText globalAct_var css stringify this
            (RScreenLocator loc) text h w)
  = Ok (0 <? length (Match.filterText (document w) elems text
                       (lastIndex w1)).1).
Proof.
  intros Hall. pose proof (allElements_document _ _ _ _ _ Hall) as Hdoc.
  unfold toContainText, ScreenLocator.filterText, settled.
  unfold eff_bind at 1. cbn [verifyReceiver].
  match goal with
  | |- context [chainLocator loc ?d ?m h] =>
      pose proof (allElements_chainLocator loc d m h w) as Hnew;
      destruct (chainLocator loc d m h) as [filtered h']
  end.
  simpl in Hnew. unfold eff_bind in Hnew. rewrite Hall in Hnew.
  unfold run, returning in Hnew. rewrite Hdoc in Hnew.
  unfold eff_bind, passOf. rewrite Hnew.
  by destruct (Match.filterText (document w) elems text (lastIndex w1)).
Qed.

(** X19: on a locator whose elements can be found, [toBeInDocument] passes
    exactly when there is at least one.  [toContainText] passes only when
    the own text of one of these elements themselves matches; the text of
    their descendants does not count; for a string, or a regular expression
    with neither the [g] nor the [y] flag, it passes exactly then. *)
Theorem set_matchers_pass (this : MatcherContext) (loc : ScreenLocator)
    (text : TextQuery) (h : Heap) (w w1 : World) (elems : list Dom.Element) :
  allElements h loc w = (Ok elems, w1) ->
  passOf (toBeInDocument globalAct_var css stringify this
            (RScreenLocator loc) tt h w)
  = Ok (0 <? length elems)
  /\ (exists passed,
        passOf (toContainText globalAct_var css stringify this
                  (RScreenLocator loc) text h w) = Ok passed
        /\ (passed = true ->
            exists e, e ∈ elems /\ queryMatches (document w) text e = true))
  /\ (stateless text = true ->
      passOf (toContainText globalAct_var css stringify this
                (RScreenLocator loc) text h w)
      = Ok (existsb (queryMatches (document w) text) elems)).
Proof.
  intros Hall. split; [|split].
  - unfold toBeInDocument, settled, passOf. unfold eff_bind at 1.
    cbn [verifyReceiver]. unfold eff_bind. by rewrite Hall.
  - rewrite (toContainText_pass _ _ _ _ _ _ _ Hall). eexists. split; [done|].
    intros [e He]%nonempty_iff. exists e. by eapply elem_of_filterText.
  - intros Hs. rewrite (toContainText_pass _ _ _ _ _ _ _ Hall).
    by rewrite filterText_nonempty.
Qed.

(** X20: with a selector that parses and is not empty, [toMatchSelector]
    materializes the locator twice: it passes exactly when the selector
    matches one of the elements found the first time or a descendant of one
    found the second time; when the first materialization moved no
    [lastIndex] both find the same elements, and it passes exactly when the
    selector matches one of these elements themselves or one of their
    descendants. *)
Theorem toMatchSelector_pass (this : MatcherContext) (loc : ScreenLocator)
    (selector : string) (m : Dom.Node -> Dom.Element -> bool)
    (h : Heap) (w w1 w2 : World) (elems again : list Dom.Element) :
  css selector = Some m ->
  selector <> "" ->
  allElements h loc w = (Ok elems, w1) ->
  allElements h loc w1 = (Ok again, w2) ->
  passOf (toMatchSelector globalAct_var css stringify this
            (RScreenLocator loc) selector h w)
  = Ok (existsb (m (document w)) elems
        || existsb
             (fun e =>
                existsb (m (document w)) (Dom.allDescendants (document w) e))
             again)
  /\ (w1 = w ->
      passOf (toMatchSelector globalAct_var css stringify this
                (RScreenLocator loc) selector h w)
      = Ok (existsb
              (fun e =>
                 m (document w) e
                 || existsb (m (document w))
                      (Dom.allDescendants (document w) e))
              elems)).
Proof.
  intros Hcss Hne Hall Hagain.
  pose proof (allElements_document _ _ _ _ _ Hall) as Hdoc.
  assert (Hpass :
    passOf (toMatchSelector globalAct_var css stringify this
              (RScreenLocator loc) selector h w)
    = Ok (existsb (m (document w)) elems
          || existsb
               (fun e =>
                  existsb (m (document w))
                    (Dom.allDescendants (document w) e))
               again)).
  { unfold toMatchSelector, settled, passOf. unfold eff_bind at 1.
    cbn [verifyReceiver]. unfold eff_bind at 1. rewrite Hall.
    unfold eff_bind at 1. rewrite Hdoc.
    rewrite (filterMatches_filter css m _ _ _ Hcss).
    unfold locate. destruct (String.eqb_spec selector ""); [done|].
    match goal with
    | |- context [chainLocator loc ?d ?f h] =>
        pose proof (allElements_chainLocator loc d f h w1) as Hnew;
        destruct (chainLocator loc d f h) as [desc h']
    end.
    simpl in Hnew. unfold eff_bind in Hnew. rewrite Hagain in Hnew.
    rewrite run_reading in Hnew.
    rewrite (allElements_document _ _ _ _ _ Hagain), Hdoc in Hnew.
    destruct (elem_of_matchQuerySelector css m (document w) selector again
                Hcss) as (results & Hrun & Hres).
    rewrite Hrun in Hnew. unfold eff_bind. rewrite Hnew. simpl. f_equal.
    apply Bool.eq_iff_eq_true.
    rewrite !orb_true_iff, !nonempty_iff, !existsb_elem_of. split.
    - intros [[x Hx]|[d Hd]].
      + apply list_elem_of_In, filter_In in Hx as [Hx Hm].
        left. exists x. split; [by apply list_elem_of_In|done].
      + apply Hres in Hd as (e & He & Hd & Hm). right. exists e.
        split; [done|]. apply existsb_elem_of. by exists d.
    - intros [(e & He & Hm)|(e & He & Hd)].
      + left. exists e. apply list_elem_of_In, filter_In.
        split; [by apply list_elem_of_In|done].
      + right. apply existsb_elem_of in Hd as (d & Hd & Hm).
        exists d. apply Hres. by exists e. }
  split; [done|]. intros ->. rewrite Hpass.
  rewrite Hall in Hagain. injection Hagain as <- _. f_equal.
  apply Bool.eq_iff_eq_true.
  rewrite !orb_true_iff, !existsb_elem_of. split.
  - intros [(e & He & Hm)|(e & He & Hd)]; exists e; (split; [done|]);
      apply orb_true_iff; auto.
  - intros (e & He & [Hm|Hd]%orb_true_iff); [left|right]; by exists e.
Qed.

End PassConditions.

Lemma set_matchers_pass_witness :
  passOf (toContainText (Some plainAct) Fixture.tagCss Fixture.shown
            Fixture.positive (RScreenLocator Fixture.screen)
            (QString "alpha") Fixture.heap0 (Fixture.world Fixture.alphabet))
  = Ok false.
Proof.
  apply (proj2 (proj2 (set_matchers_pass (Some plainAct) Fixture.tagCss
           Fixture.shown
           Fixture.positive Fixture.screen (QString "alpha") Fixture.heap0
           (Fixture.world Fixture.alphabet) (Fixture.world Fixture.alphabet)
           [[]] eq_refl)) eq_refl).
Defined.

Lemma toMatchSelector_pass_witness :
  passOf (toMatchSelector (Some plainAct) Fixture.tagCss Fixture.shown
            Fixture.positive (RScreenLocator Fixture.screen) "div"
            Fixture.heap0 (Fixture.world Fixture.alphabet))
  = Ok true.
Proof.
  apply (proj2 (toMatchSelector_pass (Some plainAct) Fixture.tagCss
           Fixture.shown
           Fixture.positive Fixture.screen "div" _ Fixture.heap0
           (Fixture.world Fixture.alphabet) (Fixture.world Fixture.alphabet)
           (Fixture.world Fixture.alphabet) [[]] [[]] eq_refl
           ltac:(discriminate) eq_refl eq_refl) eq_refl).
Defined.

(** ** Class names and whitespace *)

Lemma join_split_dotted (s : string) :
  Js.join "." (Js.split_space s) = dotted s.
Proof.
  unfold Js.join. induction s as [|c s IH]; [done|]. simpl.
  destruct (Ascii.eqb c " ").
  - destruct (split_space_cons s) as (w & ws & Hs). rewrite Hs in *.
    change (String.concat "." ("" :: w :: ws))
      with ("" +:+ "." +:+ String.concat "." (w :: ws)).
    by rewrite IH.
  - destruct (split_space_cons s) as (w & ws & Hs). rewrite Hs in *.
    by rewrite concat_cons_char, IH.
Qed.

Lemma map_trim_pieces (s : string) :
  spaceSeparated s = true ->
  map Js.trim (Js.split_space s) = Js.split_space s.
Proof.
  intros Hs. pose proof (split_space_pieces s Hs) as Hall.
  induction Hall as [|p ps Hp _ IH]; [done|]. simpl.
  by rewrite IH, trim_noWhitespace.
Qed.

Section ClassNames.

Context (globalAct_var : option DomScreenAct).
Context (css : string -> option (Dom.Node -> Dom.Element -> bool)).
Context (stringify : Dom.Node -> Testing.Shown -> string).

(** X21: for class names with no whitespace but space characters,
    [toHaveClass] passes, fails or throws exactly as [toMatchSelector] does
    on the selector made of a dot and the class names with every space
    turned into a dot, and leaves the same world; so two spaces in a row,
    or a space in front or behind, put two dots in a row or a dot at the
    end of the selector. *)
Theorem toHaveClass_selector (this : MatcherContext) (receiver : Receiver)
    (className : string) (h : Heap) (w : World) :
  spaceSeparated className = true ->
  passOf (toHaveClass globalAct_var css stringify this receiver className h w)
  = passOf (toMatchSelector globalAct_var css stringify this receiver
              ("." +:+ dotted className) h w)
  /\ (toHaveClass globalAct_var css stringify this receiver className h w).2
     = (toMatchSelector globalAct_var css stringify this receiver
          ("." +:+ dotted className) h w).2.
Proof.
  intros Hs. unfold toHaveClass, toMatchSelector, passOf, settled.
  rewrite (map_trim_pieces _ Hs), join_split_dotted.
  unfold eff_bind at 1 5 9 13.
  destruct (verifyReceiver globalAct_var css receiver h) as [[loc h0]|];
    [|done].
  unfold eff_bind at 1 4 7 10.
  destruct (allElements h0 loc w) as [[all|e] w1]; [|done].
  unfold eff_bind at 1 3 5 7.
  destruct (filterMatches css (document w1) ("." +:+ dotted className) all)
    as [gotDirect|]; [|done].
  destruct (locate css loc ("." +:+ dotted className) h0) as [desc h1].
  unfold eff_bind.
  by destruct (allElements h1 desc w1) as [[gotDesc|e] w2].
Qed.

End ClassNames.

Lemma toHaveClass_selector_witness :
  passOf (toHaveClass (Some plainAct) Fixture.tagCss Fixture.shown
            Fixture.positive (RScreenLocator Fixture.screen) "a  b"
            Fixture.heap0 (Fixture.world Fixture.alphabet))
  = passOf (toMatchSelector (Some plainAct) Fixture.tagCss Fixture.shown
              Fixture.positive (RScreenLocator Fixture.screen) ".a..b"
              Fixture.heap0 (Fixture.world Fixture.alphabet)).
Proof.
  apply (toHaveClass_selector (Some plainAct) Fixture.tagCss Fixture.shown
           Fixture.positive (RScreenLocator Fixture.screen) "a  b"
           Fixture.heap0 (Fixture.world Fixture.alphabet) eq_refl).
Defined.

Lemma tokens_are_words (s : string) : Forall isWord (tokens s).
Proof.
  induction s as [|c s IH]; [constructor|].
  destruct (Js.is_space c) eqn:Hc.
  - by rewrite tokens_space.
  - rewrite tokens_word by done.
    assert (Hone : isWord (String c "")).
    { split; [done|]. unfold noWhitespace. simpl. by rewrite Hc. }
    destruct (starts_word s); [|by constructor].
    destruct (tokens s) as [|w ws]; [by constructor|].
    apply Forall_cons in IH as [[Hw Hnw] Hws].
    constructor; [|done]. split; [done|].
    unfold noWhitespace in *. simpl. by rewrite Hc.
Qed.

Lemma tokens_word_then (w rest : string) :
  isWord w ->
  (rest = "" \/ exists c s, rest = String c s /\ Js.is_space c = true) ->
  tokens (w +:+ rest) = w :: tokens rest.
Proof.
  intros [Hne Hnw] Hrest. unfold noWhitespace in Hnw.
  induction w as [|c w IH]; [done|]. simpl in Hnw.
  apply andb_prop in Hnw as [Hc Hw]. apply negb_true_iff in Hc.
  rewrite append_cons, tokens_word by done.
  destruct w as [|c' w'].
  - change ("" +:+ rest) with rest.
    destruct Hrest as [->|(c0 & s & -> & Hc0)]; [done|].
    simpl. by rewrite Hc0.
  - rewrite IH by done. rewrite append_cons. simpl.
    simpl in Hw. apply andb_prop in Hw as [Hc' _].
    by rewrite Hc'.
Qed.

Lemma tokens_join (ws : list string) :
  Forall isWord ws -> tokens (Js.join " " ws) = ws.
Proof.
  unfold Js.join. induction 1 as [|w ws Hw Hws IH]; [done|].
  destruct ws as [|w' ws'].
  - simpl. rewrite <- (append_empty_r w) at 1.
    rewrite tokens_word_then by (by try left). done.
  - change (String.concat " " (w :: w' :: ws'))
      with (w +:+ String " " (String.concat " " (w' :: ws'))).
    rewrite tokens_word_then; [|done|right; by eexists _, _].
    by rewrite tokens_space, IH.
Qed.

(** X22: [normalizeWhitespace] keeps the words of a string and is
    idempotent: the words of its result are the words of its argument, and
    normalizing a second time changes nothing. *)
Theorem normalizeWhitespace_idempotent (s : string) :
  tokens (normalizeWhitespace s) = tokens s
  /\ normalizeWhitespace (normalizeWhitespace s) = normalizeWhitespace s.
Proof.
  assert (Ht : tokens (normalizeWhitespace s) = tokens s).
  { rewrite normalizeWhitespace_tokens. apply tokens_join, tokens_are_words. }
  split; [done|].
  rewrite (normalizeWhitespace_tokens (normalizeWhitespace s)), Ht.
  by rewrite normalizeWhitespace_tokens.
Qed.

(** ** What the matcher hint shows *)

Lemma shown_plain (s rest : string) :
  noEscape s = true -> shown (s +:+ rest) = s +:+ shown rest.
Proof.
  unfold shown, noEscape. induction s as [|c s IH]; [done|].
  intros [Hc Hs]%andb_prop. apply negb_true_iff in Hc.
  rewrite append_cons. cbn [shownFrom]. by rewrite Hc, IH.
Qed.

Lemma shown_dim (s rest : string) :
  noEscape s = true -> shown (tty.dim s +:+ rest) = s +:+ shown rest.
Proof.
  intros Hs. unfold tty.dim. destruct (String.eqb_spec s "") as [->|_];
    [done|].
  rewrite !append_assoc.
  change (shown (s +:+ (tty.esc +:+ "[22m" +:+ rest)) = s +:+ shown rest).
  by rewrite shown_plain.
Qed.

Lemma shown_red (s rest : string) :
  noEscape s = true -> shown (tty.red s +:+ rest) = s +:+ shown rest.
Proof.
  intros Hs. unfold tty.red. destruct (String.eqb_spec s "") as [->|_];
    [done|].
  rewrite !append_assoc.
  change (shown (s +:+ (tty.esc +:+ "[39m" +:+ rest)) = s +:+ shown rest).
  by rewrite shown_plain.
Qed.

Lemma shown_green (s rest : string) :
  noEscape s = true -> shown (tty.green s +:+ rest) = s +:+ shown rest.
Proof.
  intros Hs. unfold tty.green. destruct (String.eqb_spec s "") as [->|_];
    [done|].
  rewrite !append_assoc.
  change (shown (s +:+ (tty.esc +:+ "[39m" +:+ rest)) = s +:+ shown rest).
  by rewrite shown_plain.
Qed.

Lemma noEscape_app (a b : string) :
  noEscape a = true -> noEscape b = true -> noEscape (a +:+ b) = true.
Proof.
  unfold noEscape. induction a as [|c a IH]; [done|].
  intros [Hc Ha]%andb_prop Hb. rewrite append_cons.
  cbn [all_chars]. by rewrite Hc, IH.
Qed.

(** X23: without its colour sequences the hint of [formatMatcher] reads
    [expect(received).matcherName(expected)], with [.not] after the closing
    bracket when the matcher is negated, for a matcher name, a received and
    an expected text that hold no escape character; an empty received or
    expected text leaves an empty pair of brackets. *)
Theorem formatMatcher_shown (matcherName received expected : string)
    (isNot : bool) :
  noEscape matcherName = true ->
  noEscape received = true ->
  noEscape expected = true ->
  shown (Testing.formatMatcher matcherName received expected isNot)
  = "expect(" +:+ received +:+ ")" +:+ (if isNot then ".not" else "")
    +:+ "." +:+ matcherName +:+ "(" +:+ expected +:+ ")".
Proof.
  intros Hname Hreceived Hexpected. unfold Testing.formatMatcher.
  assert (Hcall : noEscape ("." +:+ matcherName +:+ "(") = true).
  { apply (noEscape_app "."); [done|]. by apply noEscape_app. }
  assert (Hend : forall s, noEscape s = true -> shown (tty.dim s) = s).
  { intros s Hs. rewrite <- (append_empty_r (tty.dim s)).
    by rewrite shown_dim, append_empty_r. }
  change ("" +:+ tty.dim "expect(") with (tty.dim "expect(").
  destruct isNot.
  - rewrite !append_assoc.
    rewrite shown_dim, shown_red, shown_dim, shown_dim, shown_dim,
      shown_green, Hend by done.
    by rewrite !append_assoc.
  - rewrite !append_assoc.
    rewrite shown_dim, shown_red, shown_dim, shown_dim,
      shown_green, Hend by done.
    by rewrite !append_assoc.
Qed.

Lemma formatMatcher_shown_witness :
  shown (Testing.formatMatcher "toHaveTitle" "screen" "" true)
  = "expect(screen).not.toHaveTitle()".
Proof.
  apply (formatMatcher_shown "toHaveTitle" "screen" "" true
           eq_refl eq_refl eq_refl).
Defined.
